(** * Vehicle accident detector: the frame-by-frame heuristic of
      [detector/pipeline.py], embedded and verified.

    The embedding follows the Python source function by function:
    [compute_iou], the body of the [for frame in frame_generator] loop of
    [analyze_frames], the CSV epilogue, and the three entry points
    [process_uploaded_video], [process_webcam], [process_phone_ip_cam].

    Numbers.  The source computes with Python numbers (the detector hands
    back floats, [max(0, ...)] mixes in the integer 0).  The control flow
    only ever uses the operations collected in the class [PyNum] below, so
    every definition is generic in the number type.  The theorems about the
    loop, the event log and the entry points hold for every implementation
    of that interface.  The class has two instances: binary64 doubles
    ([F_PyNum], on Rocq's primitive floats), which are the numbers the
    program runs on, and exact rationals ([Q_PyNum]), which are what the
    formulas mean without rounding, overflow and NaN.  Each theorem about
    the value of a computation says which of the two it is about.

    Effects.  Everything the program does to the outside world (console
    lines, detector calls, drawing on the frame, image and CSV files,
    opening and releasing a capture) is recorded, in program order, in a
    list of [Effect]s.  The frame generator is the list of the items it
    would yield; the loop hands back the items it has not pulled. *)

From Stdlib Require Import ZArith QArith Qminmax Qpower Lqa Lia Bool List String Ascii.
From Stdlib Require Import DecimalString Sorted.
From Stdlib Require Import Floats.
Import ListNotations.
Close Scope Q_scope.

Set Implicit Arguments.

(** ** Part I: the embedding *)

(** *** Text *)

Definition string_of_nat (n : nat) : string :=
  NilZero.string_of_uint (Nat.to_uint n).

Definition string_of_Z (z : Z) : string :=
  NilZero.string_of_int (Z.to_int z).

(** ["%02d"] for a non-negative argument. *)
Definition two_digits (z : Z) : string :=
  if (z <? 10)%Z then ("0" ++ string_of_Z z)%string else string_of_Z z.

(** [str(timedelta(seconds=n))] for an integer [n]: days are split off
    first, then ["%d:%02d:%02d"]. *)
Definition timedelta_str (seconds : Z) : string :=
  let days := (seconds / 86400)%Z in
  let secs := (seconds mod 86400)%Z in
  let mm := (secs / 60)%Z in
  let ss := (secs mod 60)%Z in
  let hh := (mm / 60)%Z in
  let mm := (mm mod 60)%Z in
  let s := (string_of_Z hh ++ ":" ++ two_digits mm ++ ":" ++ two_digits ss)%string in
  if (days =? 0)%Z then s
  else (string_of_Z days ++ " day" ++ (if (Z.abs days =? 1)%Z then "" else "s")
        ++ ", " ++ s)%string.

(** *** Numbers as the source uses them *)

Class PyNum (N : Type) : Type := {
  zero : N;                    (* the literal 0 *)
  eps : N;                     (* the literal 1e-6 *)
  fallback_fps_upload : N;     (* the literal 25.0 *)
  fallback_fps_live : N;       (* the literal 15.0 *)
  fps_cap : N;                 (* the literal 120 *)
  add : N -> N -> N;
  sub : N -> N -> N;
  mul : N -> N -> N;
  div : N -> N -> N;
  ltb : N -> N -> bool;        (* a < b *)
  leb : N -> N -> bool;        (* a <= b *)
  truthy : N -> bool;          (* bool(a), that is a != 0 *)
  of_nat : nat -> N;           (* an int used as a number *)
  to_int : N -> Z;             (* int(a): truncation toward zero *)
  round2 : N -> N;             (* round(a, 2) *)
  fmt1f : N -> string          (* format(a, ".1f") *)
}.

Section Numbers.
Context {N : Type} `{PyNum N}.

Definition gtb (a b : N) : bool := ltb b a.
Definition geb (a b : N) : bool := leb b a.

(** Python's two-argument [max] and [min] keep the first argument unless
    the second one is strictly greater (resp. smaller). *)
Definition py_max (a b : N) : N := if gtb b a then b else a.
Definition py_min (a b : N) : N := if ltb b a then b else a.

End Numbers.

(** *** Geometry *)

(** A box is the four-element sequence [x1, y1, x2, y2]. *)
Record Box (N : Type) : Type := mkBox { bx1 : N; by1 : N; bx2 : N; by2 : N }.
Arguments mkBox {N} _ _ _ _.

Section Geometry.
Context {N : Type} `{PyNum N}.

(** [max(0, x2 - x1) * max(0, y2 - y1)]: the expression that the source
    writes out for [area1] and [area2] in [compute_iou] and for [area] in
    the detection filter of [analyze_frames]. *)
Definition clamped_area (x1 y1 x2 y2 : N) : N :=
  mul (py_max zero (sub x2 x1)) (py_max zero (sub y2 y1)).

Definition compute_iou (box1 box2 : Box N) : N :=
  let x1 := py_max (bx1 box1) (bx1 box2) in
  let y1 := py_max (by1 box1) (by1 box2) in
  let x2 := py_min (bx2 box1) (bx2 box2) in
  let y2 := py_min (by2 box1) (by2 box2) in
  let inter_w := py_max zero (sub x2 x1) in
  let inter_h := py_max zero (sub y2 y1) in
  let inter_area := mul inter_w inter_h in
  let area1 := clamped_area (bx1 box1) (by1 box1) (bx2 box1) (by2 box1) in
  let area2 := clamped_area (bx1 box2) (by1 box2) (bx2 box2) (by2 box2) in
  let union_area := add (sub (add area1 area2) inter_area) eps in
  div inter_area union_area.

End Geometry.

(** *** Detections, events, effects *)

(** One element of [results.boxes]: the class id [int(box.cls[0])] and the
    coordinates [box.xyxy[0].tolist()]. *)
Record RawDetection (N : Type) : Type := mkRaw { cls : Z; xyxy : Box N }.

(** The detector: the call [model(frame, conf=..., ...)[0].boxes] and the
    table [model.names]. *)
Record Detector (Frame N : Type) : Type := mkDetector {
  infer : Frame -> N -> list (RawDetection N);
  names : Z -> string
}.

(** The dictionary [{"coords": ..., "area": ..., "label": ...}]. *)
Record VehicleBox (N : Type) : Type := mkVehicle {
  coords : Box N;
  area : N;
  label : string
}.

(** The dictionary appended to [accident_events]. *)
Record AccidentEvent (N : Type) : Type := mkEvent {
  event_id : nat;
  frame : nat;
  time_seconds : N;
  time_hhmmss : string;
  snapshot_path : string
}.

(** A value handed to the [csv] module. *)
Inductive Cell (N : Type) : Type :=
| CInt (n : nat)
| CNum (x : N)
| CStr (s : string).
Arguments CInt {N} n.
Arguments CNum {N} x.
Arguments CStr {N} s.

(** What [cv2.VideoCapture] is opened on. *)
Inductive Source : Type :=
| ByName (s : string)     (* a file path or a stream URL *)
| ByIndex (i : Z).        (* a camera index *)

Inductive Effect (Frame N : Type) : Type :=
| Print (line : string)
| Infer (img : Frame) (conf : N)
| Rectangle (img : Frame) (p1 p2 : Z * Z)
| PutText (img : Frame) (text : string) (org : Z * Z)
| Imwrite (path : string) (img : Frame)
| CsvWrite (path : string) (rows : list (list (Cell N)))
| CapOpen (src : Source)
| CapRelease (src : Source).
Arguments Print {Frame N} line.
Arguments Infer {Frame N} img conf.
Arguments Rectangle {Frame N} img p1 p2.
Arguments PutText {Frame N} img text org.
Arguments Imwrite {Frame N} path img.
Arguments CsvWrite {Frame N} path rows.
Arguments CapOpen {Frame N} src.
Arguments CapRelease {Frame N} src.

(** The functions of [os.path] and of [cv2.VideoCapture] the program calls. *)
Record Platform (Frame N : Type) : Type := mkPlatform {
  path_join : string -> string -> string;
  path_exists : string -> bool;
  path_basename : string -> string;
  path_splitext : string -> string * string;
  is_opened : Source -> bool;              (* cap.isOpened() *)
  cap_fps : Source -> N;                   (* cap.get(cv2.CAP_PROP_FPS) *)
  cap_frames : Source -> list Frame        (* the frames cap.read() delivers
                                              before it first fails *)
}.

(** [os.path.join] on a POSIX system, for two components. *)
Definition posix_join (a b : string) : string :=
  match b with
  | String "/" _ => b
  | _ =>
      if (String.length a =? 0)%nat then b
      else if String.eqb (substring (String.length a - 1) 1 a) "/"
           then (a ++ b)%string
           else (a ++ "/" ++ b)%string
  end.

Definition VEHICLE_CLASSES : list string :=
  ["car"; "motorbike"; "bus"; "truck"]%string.

Definition in_vehicle_classes (l : string) : bool :=
  existsb (String.eqb l) VEHICLE_CLASSES.

Definition csv_fieldnames : list string :=
  ["event_id"; "frame"; "time_seconds"; "time_hhmmss"; "snapshot_path"]%string.

(** [rowdict.get(key)] on an element of [accident_events]. *)
Definition event_get {N : Type} (e : AccidentEvent N) (key : string)
  : option (Cell N) :=
  if String.eqb key "event_id" then Some (CInt (event_id e))
  else if String.eqb key "frame" then Some (CInt (frame e))
  else if String.eqb key "time_seconds" then Some (CNum (time_seconds e))
  else if String.eqb key "time_hhmmss" then Some (CStr (time_hhmmss e))
  else if String.eqb key "snapshot_path" then Some (CStr (snapshot_path e))
  else None.

(** The row [csv.DictWriter] writes for one dictionary: the values in the
    order of [fieldnames], the empty string for a missing key. *)
Definition dict_row {N : Type} (fieldnames : list string) (e : AccidentEvent N)
  : list (Cell N) :=
  map (fun k => match event_get e k with Some c => c | None => CStr "" end)
      fieldnames.

(** *** The loop of [analyze_frames] *)

(** The local variables that live across iterations, and the effects so
    far. *)
Record RunState (Frame N : Type) : Type := mkState {
  prev_boxes : list (VehicleBox N);
  accident_events : list (AccidentEvent N);
  snapshot_paths : list string;
  accident_counter : nat;
  frame_idx : nat;
  trace : list (Effect Frame N)
}.

(** A frame generator: the items it yields, and the lines it prints when it
    is pulled once more after the last of them. *)
Record Generator (Frame N : Type) : Type := mkGen {
  items : list (option Frame);
  at_end : list string
}.
Arguments mkGen {Frame N} items at_end.

(** What a call of [analyze_frames] leaves behind. *)
Record Run (Frame N : Type) : Type := mkRun {
  returned : list string * string;     (* (snapshot_paths, log_csv_path) *)
  final : RunState Frame N;            (* the locals and all effects *)
  unpulled : list (option Frame)       (* the rest of the generator *)
}.

Section Analyze.
Context {Frame N : Type} `{PyNum N}.
Variable model : Detector Frame N.
Variable os : Platform Frame N.
Variable base_name : string.
Variable fps : N.
Variable conf_thres : N.
Variable accident_iou_thres : N.
Variable area_growth_factor : N.
Variable max_frames : option Z.
Variable gen_end : list string.

(** [for box in results.boxes]: keep the vehicle classes, in order. *)
Fixpoint vehicle_boxes (boxes : list (RawDetection N)) : list (VehicleBox N) :=
  match boxes with
  | [] => []
  | box :: rest =>
      let cls_id := cls box in
      let label := names model cls_id in
      if negb (in_vehicle_classes label) then vehicle_boxes rest
      else
        let b := xyxy box in
        let area := clamped_area (bx1 b) (by1 b) (bx2 b) (by2 b) in
        mkVehicle b area label :: vehicle_boxes rest
  end.

(** [for pb in prev_boxes] for one [cb].  The result is the value of
    [accident_in_this_frame] when the loop is left, together with the
    pairs on which the loop body ran, in order. *)
Fixpoint scan_prev (cb : VehicleBox N) (prev : list (VehicleBox N))
  : bool * list (VehicleBox N * VehicleBox N) :=
  match prev with
  | [] => (false, [])
  | pb :: rest =>
      let iou := compute_iou (coords cb) (coords pb) in
      if geb iou accident_iou_thres && gtb (area pb) zero then
        let growth := div (area cb) (add (area pb) eps) in
        if geb growth area_growth_factor then (true, [(cb, pb)])
        else let r := scan_prev cb rest in (fst r, (cb, pb) :: snd r)
      else let r := scan_prev cb rest in (fst r, (cb, pb) :: snd r)
  end.

(** [for cb in curr_boxes], left as soon as the inner loop has set the
    flag. *)
Fixpoint scan_curr (curr prev : list (VehicleBox N))
  : bool * list (VehicleBox N * VehicleBox N) :=
  match curr with
  | [] => (false, [])
  | cb :: rest =>
      let r := scan_prev cb prev in
      if fst r then (true, snd r)
      else let r' := scan_curr rest prev in (fst r', snd r ++ snd r')
  end.

Definition accident_in_this_frame (curr prev : list (VehicleBox N)) : bool :=
  fst (scan_curr curr prev).

Definition pairs_examined (curr prev : list (VehicleBox N))
  : list (VehicleBox N * VehicleBox N) :=
  snd (scan_curr curr prev).

Definition draw_label (img : Frame) (text : string) (x1 y1 : N)
  : Effect Frame N :=
  PutText img text (to_int x1, (to_int y1 - 5)%Z).

(** The "Draw boxes" loop. *)
Definition draw_boxes (img : Frame) (curr : list (VehicleBox N))
  : list (Effect Frame N) :=
  flat_map (fun cb =>
    let b := coords cb in
    [ Rectangle img (to_int (bx1 b), to_int (by1 b))
                    (to_int (bx2 b), to_int (by2 b));
      draw_label img (label cb) (bx1 b) (by1 b) ]) curr.

Definition snapshot_name (counter idx : nat) : string :=
  (base_name ++ "_accident_" ++ string_of_nat counter
   ++ "_frame_" ++ string_of_nat idx ++ ".jpg")%string.

(** The loop body from the progress message on, for a frame that passed
    both [break] tests; [idx] is the incremented [frame_idx]. *)
Definition process_frame (img : Frame) (idx : nat) (st : RunState Frame N)
  : RunState Frame N :=
  let progress :=
    if (idx mod 50 =? 0)%nat
    then [Print ("[INFO] Processing frame " ++ string_of_nat idx ++ "...")%string]
    else [] in
  let results := infer model img conf_thres in
  let curr_boxes := vehicle_boxes results in
  let flagged := accident_in_this_frame curr_boxes (prev_boxes st) in
  let tr := (trace st ++ progress ++ [Infer img conf_thres]
             ++ draw_boxes img curr_boxes)%list in
  if flagged then
    let counter := S (accident_counter st) in
    let ts := if gtb fps zero then div (of_nat idx) fps else of_nat idx in
    let time_str := timedelta_str (to_int ts) in
    let overlay :=
      PutText img ("ACCIDENT DETECTED! #" ++ string_of_nat counter)%string
              (30%Z, 40%Z) in
    let snapshot_path :=
      path_join os "outputs/frames" (snapshot_name counter idx) in
    mkState curr_boxes
            (accident_events st ++
               [mkEvent counter idx (round2 ts) time_str snapshot_path])
            (snapshot_paths st ++ [snapshot_path])
            counter
            idx
            (tr ++ [overlay; Imwrite snapshot_path img])
  else
    mkState curr_boxes (accident_events st) (snapshot_paths st)
            (accident_counter st) idx tr.

(** [max_frames is not None and frame_idx > max_frames] *)
Definition over_budget (idx : nat) : bool :=
  match max_frames with
  | None => false
  | Some m => (Z.of_nat idx >? m)%Z
  end.

(** [for frame in frame_generator].  The second component is what is left
    of the generator when the loop ends: the items never pulled. *)
Fixpoint run_loop (gen : list (option Frame)) (st : RunState Frame N)
  : RunState Frame N * list (option Frame) :=
  match gen with
  | [] =>
      (mkState (prev_boxes st) (accident_events st) (snapshot_paths st)
               (accident_counter st) (frame_idx st)
               (trace st ++ map Print gen_end), [])
  | None :: rest => (st, rest)
  | Some img :: rest =>
      let idx := S (frame_idx st) in
      if over_budget idx then
        let line :=
          match max_frames with
          | Some m => ("[INFO] Reached max_frames=" ++ string_of_Z m
                       ++ ", stopping.")%string
          | None => ""%string
          end in
        (mkState (prev_boxes st) (accident_events st) (snapshot_paths st)
                 (accident_counter st) idx (trace st ++ [Print line]), rest)
      else run_loop rest (process_frame img idx st)
  end.

Definition initial_state : RunState Frame N :=
  mkState [] [] [] 0 0 [].

Definition log_csv_path : string :=
  path_join os "outputs" (base_name ++ "_accident_log.csv")%string.

(** The rows written under the comment [# CSV]. *)
Definition csv_rows (events : list (AccidentEvent N)) : list (list (Cell N)) :=
  match events with
  | _ :: _ => map CStr csv_fieldnames :: map (dict_row csv_fieldnames) events
  | [] => [map CStr csv_fieldnames]
  end.

Definition finish (r : RunState Frame N * list (option Frame)) : Run Frame N :=
  let st := fst r in
  let tr := (trace st
             ++ [CsvWrite log_csv_path (csv_rows (accident_events st));
                 Print ("[INFO] CSV: " ++ log_csv_path)%string;
                 Print ("[INFO] Snapshots: "
                        ++ string_of_nat (List.length (snapshot_paths st)))%string])%list in
  mkRun (snapshot_paths st, log_csv_path)
        (mkState (prev_boxes st) (accident_events st) (snapshot_paths st)
                 (accident_counter st) (frame_idx st) tr)
        (snd r).

End Analyze.

Definition analyze_frames {Frame N : Type} `{PyNum N}
  (model : Detector Frame N) (os : Platform Frame N)
  (frame_generator : Generator Frame N) (base_name : string)
  (fps conf_thres accident_iou_thres area_growth_factor : N)
  (max_frames : option Z) : Run Frame N :=
  finish os base_name
    (run_loop model os base_name fps conf_thres accident_iou_thres
              area_growth_factor max_frames (at_end frame_generator)
              (items frame_generator) initial_state).

(** *** The entry points *)

Inductive Completion (A : Type) : Type :=
| Returned (value : A)
| Raised (message : string).      (* RuntimeError(message) *)
Arguments Returned {A} value.
Arguments Raised {A} message.

Record Entry (Frame N : Type) : Type := mkEntry {
  completion : Completion (list string * option string);
  effects : list (Effect Frame N)
}.

(** The [video_file] argument: a path, or an object with a [name]. *)
Inductive VideoFile : Type :=
| VPath (s : string)
| VObject (name : string).

Definition newline : string := String (ascii_of_nat 10) EmptyString.

Section EntryPoints.
Context {Frame N : Type} `{PyNum N}.
Variable model : Detector Frame N.
Variable os : Platform Frame N.

Definition process_uploaded_video (video_file : option VideoFile)
  (conf_thres accident_iou area_growth : N) : Entry Frame N :=
  match video_file with
  | None => mkEntry (Returned ([], None)) []
  | Some vf =>
      let video_path := match vf with VPath s => s | VObject name => name end in
      if negb (path_exists os video_path) then mkEntry (Returned ([], None)) []
      else
        let cap := ByName video_path in
        if negb (is_opened os cap) then
          mkEntry (Returned ([], None)) [CapOpen cap]
        else
          let fps :=
            if truthy (cap_fps os cap) then cap_fps os cap
            else fallback_fps_upload in
          let base_name := fst (path_splitext os (path_basename os video_path)) in
          let line :=
            Print ("[UPLOAD] " ++ video_path ++ ", fps=" ++ fmt1f fps)%string in
          let frame_gen := mkGen (map Some (cap_frames os cap)) [] in
          let run :=
            analyze_frames model os frame_gen base_name fps conf_thres
                           accident_iou area_growth None in
          mkEntry (Returned (fst (returned run), Some (snd (returned run))))
                  ([CapOpen cap; line] ++ trace (final run) ++ [CapRelease cap])
  end.

(** [if fps <= 0 or fps > 120: fps = 15.0] *)
Definition live_fps (reported : N) : N :=
  if leb reported zero || gtb reported fps_cap then fallback_fps_live
  else reported.

(** The generator of the two live modes: at most [max_frames] frames, and
    [no_more] when the capture fails before that. *)
Definition live_frame_gen (cap : Source) (max_frames : Z)
  (no_more : list string) : Generator Frame N :=
  let budget := Z.to_nat max_frames in
  let available := cap_frames os cap in
  mkGen (map Some (firstn budget available))
        (if (List.length available <? budget)%nat then no_more else []).

Definition process_webcam (duration_sec conf_thres accident_iou area_growth : N)
  : Entry Frame N :=
  let cap := ByIndex 0 in
  if negb (is_opened os cap) then
    mkEntry (Raised "Could not open laptop webcam (index 0).") [CapOpen cap]
  else
    let fps := live_fps (cap_fps os cap) in
    let line := Print ("[WEBCAM] Using FPS=" ++ fmt1f fps)%string in
    let base_name := "laptop_webcam"%string in
    let max_frames := to_int (mul fps duration_sec) in
    let frame_gen := live_frame_gen cap max_frames [] in
    let run :=
      analyze_frames model os frame_gen base_name fps conf_thres
                     accident_iou area_growth (Some max_frames) in
    mkEntry (Returned (fst (returned run), Some (snd (returned run))))
            ([CapOpen cap; line] ++ trace (final run) ++ [CapRelease cap]).

Definition ip_cam_error (ip_url : string) : string :=
  ("Could not open IP camera stream: " ++ ip_url ++ newline
   ++ "Check that:" ++ newline
   ++ "  - Phone and laptop are on the same Wi-Fi" ++ newline
   ++ "  - You can open this URL in your browser" ++ newline
   ++ "  - IP Webcam (or similar app) is running.")%string.

Definition process_phone_ip_cam (ip_url : option string)
  (duration_sec conf_thres accident_iou area_growth : N) : Entry Frame N :=
  match ip_url with
  | None => mkEntry (Returned ([], None)) []
  | Some EmptyString => mkEntry (Returned ([], None)) []
  | Some url =>
      let opening := Print ("[PHONE IP CAM] Opening stream: " ++ url)%string in
      let cap := ByName url in
      if negb (is_opened os cap) then
        mkEntry (Raised (ip_cam_error url)) [opening; CapOpen cap]
      else
        let fps := live_fps (cap_fps os cap) in
        let line := Print ("[PHONE IP CAM] Using FPS=" ++ fmt1f fps)%string in
        let base_name := "phone_ip_cam"%string in
        let max_frames := to_int (mul fps duration_sec) in
        let frame_gen :=
          live_frame_gen cap max_frames
            ["[PHONE IP CAM] No more frames from stream."%string] in
        let run :=
          analyze_frames model os frame_gen base_name fps conf_thres
                         accident_iou area_growth (Some max_frames) in
        mkEntry (Returned (fst (returned run), Some (snd (returned run))))
                ([opening; CapOpen cap; line] ++ trace (final run)
                 ++ [CapRelease cap])
  end.

End EntryPoints.

(** *** The router of the user interface ([ui/gradio_app.py]) *)

Section Router.
Context {Frame N : Type} `{PyNum N}.
Variable model : Detector Frame N.
Variable os : Platform Frame N.

Definition gradio_main (source_type : string)
  (video_file : option VideoFile) (webcam_duration : N)
  (phone_ip_url : option string) (phone_duration : N)
  (conf_thres accident_iou area_growth : N) : Entry Frame N :=
  if String.eqb source_type "Upload video" then
    process_uploaded_video model os video_file conf_thres accident_iou
                           area_growth
  else if String.eqb source_type "Laptop webcam" then
    process_webcam model os webcam_duration conf_thres accident_iou area_growth
  else
    process_phone_ip_cam model os phone_ip_url phone_duration conf_thres
                         accident_iou area_growth.

End Router.

(** *** Exact rationals as numbers *)

Definition Qltb (a b : Q) : bool :=
  match Qcompare a b with Lt => true | _ => false end.

(** Rounding to the nearest multiple of [1/scale], ties to even. *)
Definition round_half_even (scale : positive) (q : Q) : Z :=
  let n := (Qnum q * Zpos scale)%Z in
  let d := Zpos (Qden q) in
  let lo := (n / d)%Z in
  let r := (n mod d)%Z in
  match (2 * r ?= d)%Z with
  | Lt => lo
  | Gt => (lo + 1)%Z
  | Eq => if Z.even lo then lo else (lo + 1)%Z
  end.

Definition fmt1f_Q (q : Q) : string :=
  let t := round_half_even 10 q in
  let sign := if (Qnum q <? 0)%Z then "-"%string else ""%string in
  let a := Z.abs t in
  (sign ++ string_of_Z (a / 10) ++ "." ++ string_of_Z (a mod 10))%string.

#[export] Instance Q_PyNum : PyNum Q := {|
  zero := 0%Q;
  eps := (1 # 1000000)%Q;
  fallback_fps_upload := 25%Q;
  fallback_fps_live := 15%Q;
  fps_cap := 120%Q;
  add := Qplus;
  sub := Qminus;
  mul := Qmult;
  div := Qdiv;
  ltb := Qltb;
  leb := Qle_bool;
  truthy := fun q => negb (Qeq_bool q 0);
  of_nat := fun n => inject_Z (Z.of_nat n);
  to_int := fun q => Z.quot (Qnum q) (Zpos (Qden q));
  round2 := fun q => Qmake (round_half_even 100 q) 100;
  fmt1f := fmt1f_Q
|}.

(** *** Binary64 numbers, the numbers of the program *)

(** The detector hands back Python floats, and every number the loop
    computes with is a Python float or an [int] that enters float
    arithmetic: IEEE 754 binary64, which Rocq's primitive floats are.  The
    integer literal [0] of [max(0, ...)] is the double [0.0] here; the two
    agree in every comparison and operation the program applies to them. *)

(** The exact value of a finite double ([0] for the others). *)
Definition float_exact (x : float) : Q :=
  match Prim2SF x with
  | S754_finite s m e =>
      let n := if s then Zneg m else Zpos m in
      match e with
      | Z0 => n # 1
      | Zpos p => (n * 2 ^ Zpos p) # 1
      | Zneg p => n # (2 ^ p)%positive
      end
  | _ => 0%Q
  end.

(** [float(z)] for an integer: the nearest double, ties to even. *)
Definition float_of_Z (z : Z) : float :=
  SF2Prim (binary_normalize prec emax z 0 false).

(** [int(x)] for a finite double: truncation toward zero.  ([int] of an
    infinity or a NaN raises in Python; those have the value [0] here.) *)
Definition float_to_int (x : float) : Z :=
  match Prim2SF x with
  | S754_finite s m e =>
      let v := match e with
               | Z0 => Zpos m
               | Zpos p => (Zpos m * 2 ^ Zpos p)%Z
               | Zneg p => (Zpos m / 2 ^ Zpos p)%Z
               end in
      if s then (- v)%Z else v
  | _ => 0%Z
  end.

(** [round(x, 2)]: the exact value of [x] is rounded to a multiple of
    [1/100], ties to even, and the double nearest to that decimal is
    returned; infinities and NaN are returned as they are. *)
Definition float_round2 (x : float) : float :=
  match Prim2SF x with
  | S754_finite s _ _ =>
      let t := round_half_even 100 (float_exact x) in
      let hundredths :=
        match t with
        | Z0 => S754_zero s
        | Zpos p => S754_finite false p 0
        | Zneg p => S754_finite true p 0
        end in
      SF2Prim (SFdiv prec emax hundredths (S754_finite false 100 0))
  | _ => x
  end.

(** [format(x, ".1f")] *)
Definition float_fmt1f (x : float) : string :=
  match Prim2SF x with
  | S754_nan => "nan"%string
  | S754_infinity s => if s then "-inf"%string else "inf"%string
  | S754_zero s => if s then "-0.0"%string else "0.0"%string
  | S754_finite s _ _ =>
      let t := Z.abs (round_half_even 10 (float_exact x)) in
      ((if s then "-" else "") ++ string_of_Z (t / 10) ++ "."
       ++ string_of_Z (t mod 10))%string
  end.

#[export] Instance F_PyNum : PyNum float := {|
  zero := 0%float;
  eps := 0x1.0c6f7a0b5ed8dp-20%float;      (* the double written 1e-6 *)
  fallback_fps_upload := 25%float;
  fallback_fps_live := 15%float;
  fps_cap := 120%float;
  add := PrimFloat.add;
  sub := PrimFloat.sub;
  mul := PrimFloat.mul;
  div := PrimFloat.div;
  ltb := PrimFloat.ltb;
  leb := PrimFloat.leb;
  truthy := fun x => negb (PrimFloat.eqb x 0%float);
  of_nat := fun n => float_of_Z (Z.of_nat n);
  to_int := float_to_int;
  round2 := float_round2;
  fmt1f := float_fmt1f
|}.

(** Two doubles that are one number: the same double, or two zeros. *)
Definition same_double (x y : float) : Prop :=
  x = y \/ exists s t, Prim2SF x = S754_zero s /\ Prim2SF y = S754_zero t.

(** The specification values that are not negative: [+0.0], a positive
    finite double, [+inf]. *)
Definition sf_nonneg (x : spec_float) : bool :=
  match x with
  | S754_zero false | S754_finite false _ _ | S754_infinity false => true
  | _ => false
  end.

(** [x == x]: [x] is not a NaN. *)
Definition is_number (x : float) : bool := PrimFloat.eqb x x.

Definition numeric_box (b : Box float) : bool :=
  is_number (bx1 b) && is_number (by1 b) && is_number (bx2 b)
  && is_number (by2 b).

(** *** Vocabulary of the properties *)

Section Vocabulary.
Context {Frame N : Type} `{PyNum N}.

(** A trigger pair: a current box [c] and a previous box [p] whose overlap
    reaches the threshold, with [p] of positive area and [c] grown by at
    least the growth factor. *)
Definition trigger_pair (accident_iou_thres area_growth_factor : N)
  (c p : VehicleBox N) : Prop :=
  geb (compute_iou (coords c) (coords p)) accident_iou_thres = true /\
  gtb (area p) zero = true /\
  geb (div (area c) (add (area p) eps)) area_growth_factor = true.

(** The frames the detector was run on, in order. *)
Fixpoint inferred (tr : list (Effect Frame N)) : list Frame :=
  match tr with
  | [] => []
  | Infer img _ :: rest => img :: inferred rest
  | _ :: rest => inferred rest
  end.

(** The CSV files written, in order. *)
Fixpoint csv_writes (tr : list (Effect Frame N))
  : list (string * list (list (Cell N))) :=
  match tr with
  | [] => []
  | CsvWrite path rows :: rest => (path, rows) :: csv_writes rest
  | _ :: rest => csv_writes rest
  end.

(** The frames a generator yields before its first [None]. *)
Fixpoint leading_frames (gen : list (option Frame)) : list Frame :=
  match gen with
  | Some img :: rest => img :: leading_frames rest
  | _ => []
  end.

(** One data row in the fixed column order. *)
Definition event_row (e : AccidentEvent N) : list (Cell N) :=
  [CInt (event_id e); CInt (frame e); CNum (time_seconds e);
   CStr (time_hhmmss e); CStr (snapshot_path e)].

Definition header_row : list (Cell N) :=
  [CStr "event_id"; CStr "frame"; CStr "time_seconds"; CStr "time_hhmmss";
   CStr "snapshot_path"].

(** The log agrees with the counter: as many events and snapshots as the
    counter says, with the ids 1, 2, ... in order. *)
Definition log_consistent (st : RunState Frame N) : Prop :=
  List.length (accident_events st) = accident_counter st /\
  map (@event_id N) (accident_events st) = seq 1 (accident_counter st) /\
  List.length (snapshot_paths st) = accident_counter st.

(** No event on frame 1, and an empty memory before the first frame. *)
Definition after_first_frame (st : RunState Frame N) : Prop :=
  Forall (fun ev => (2 <= frame ev)%nat) (accident_events st) /\
  (frame_idx st = 0%nat -> prev_boxes st = []).

End Vocabulary.

(** *** A small concrete scene *)

Module Demo.

(** Frames are numbered; frame 1 shows a car at [0,0,10,10], frame 2 the
    car at [0,0,13,13], frame 3 a person and a car, any other frame
    nothing. *)
Definition car (x2 y2 : Q) : RawDetection Q := mkRaw 2 (mkBox 0 0 x2 y2)%Q.

Definition model : Detector nat Q :=
  mkDetector
    (fun (img : nat) (_ : Q) =>
       match img with
       | 1%nat => [car 10 10]
       | 2%nat => [car 13 13]
       | 3%nat => [mkRaw 0 (mkBox 1 1 5 9)%Q; car 13 13]
       | _ => []
       end)
    (fun c => if (c =? 2)%Z then "car"%string
              else if (c =? 0)%Z then "person"%string
              else "other"%string).

(** A platform on which no path exists and no capture opens. *)
Definition nothing_there : Platform nat Q :=
  mkPlatform posix_join (fun _ => false) (fun s => s) (fun s => (s, ""%string))
             (fun _ => false) (fun _ => 0%Q) (fun _ => []).

(** A platform on which every capture opens at 25 frames per second and
    delivers the frames 1, 2, 3. *)
Definition studio : Platform nat Q :=
  mkPlatform posix_join (fun _ => true) (fun s => s) (fun s => (s, ""%string))
             (fun _ => true) (fun _ => 25%Q) (fun _ => [1; 2; 3]%nat).

(** The vehicle boxes of frame 1 and of frame 2. *)
Definition before : list (VehicleBox Q) := vehicle_boxes model [car 10 10].
Definition grown : list (VehicleBox Q) := vehicle_boxes model [car 13 13].

(** A box of one thousandth of a pixel in each direction. *)
Definition speck : Box Q := (mkBox 0 0 (1 # 1000) (1 # 1000))%Q.

Definition run (gen : list (option nat)) (max_frames : option Z) : Run nat Q :=
  analyze_frames model studio (mkGen gen []) "clip" 25%Q (1 # 4)%Q (1 # 2)%Q
                 (3 # 2)%Q max_frames.

(** The state after the first iteration on frame 1. *)
Definition first_step : RunState nat Q :=
  process_frame model studio "clip" 25%Q (1 # 4)%Q (1 # 2)%Q (3 # 2)%Q 1 1
                initial_state.

End Demo.

(** *** Further vocabulary *)

Section MoreVocabulary.
Context {Frame N : Type} `{PyNum N}.

(** The clamped area of a box. *)
Definition box_area (b : Box N) : N :=
  clamped_area (bx1 b) (by1 b) (bx2 b) (by2 b).

(** A box moved by [(dx, dy)]. *)
Definition shift_box (dx dy : N) (b : Box N) : Box N :=
  mkBox (add (bx1 b) dx) (add (by1 b) dy) (add (bx2 b) dx) (add (by2 b) dy).

(** The detection a vehicle box is made from. *)
Definition vehicle_of (model : Detector Frame N) (box : RawDetection N)
  : VehicleBox N :=
  mkVehicle (xyxy box) (box_area (xyxy box)) (names model (cls box)).

Definition is_vehicle (model : Detector Frame N) (box : RawDetection N) : bool :=
  in_vehicle_classes (names model (cls box)).

(** The paths of the images written, the captures opened and released, and
    the lines printed, each in order. *)
Fixpoint imwrites (tr : list (Effect Frame N)) : list string :=
  match tr with
  | [] => []
  | Imwrite path _ :: rest => path :: imwrites rest
  | _ :: rest => imwrites rest
  end.

Fixpoint opens (tr : list (Effect Frame N)) : list Source :=
  match tr with
  | [] => []
  | CapOpen src :: rest => src :: opens rest
  | _ :: rest => opens rest
  end.

Fixpoint releases (tr : list (Effect Frame N)) : list Source :=
  match tr with
  | [] => []
  | CapRelease src :: rest => src :: releases rest
  | _ :: rest => releases rest
  end.

(** The time stamp [ts] of frame [idx]. *)
Definition time_stamp (fps : N) (idx : nat) : N :=
  if gtb fps zero then div (of_nat idx) fps else of_nat idx.

(** The event with number [id] on frame [idx], as a function of the two. *)
Definition event_of (os : Platform Frame N) (base_name : string) (fps : N)
  (id idx : nat) : AccidentEvent N :=
  mkEvent id idx (round2 (time_stamp fps idx))
          (timedelta_str (to_int (time_stamp fps idx)))
          (path_join os "outputs/frames" (snapshot_name base_name id idx)).

(** The numbers of the frames that grew against their predecessor: [prev]
    is the memory before the first of [frames], which has number [idx]. *)
Fixpoint flagged_frames (model : Detector Frame N)
  (conf_thres accident_iou_thres area_growth_factor : N)
  (prev : list (VehicleBox N)) (idx : nat) (frames : list Frame) : list nat :=
  match frames with
  | [] => []
  | img :: rest =>
      let curr := vehicle_boxes model (infer model img conf_thres) in
      (if accident_in_this_frame accident_iou_thres area_growth_factor curr prev
       then [idx] else [])
      ++ flagged_frames model conf_thres accident_iou_thres area_growth_factor
           curr (S idx) rest
  end.

(** The log for the flagged frames [frames], numbered from [first_id]. *)
Definition numbered_events (os : Platform Frame N) (base_name : string)
  (fps : N) (first_id : nat) (frames : list nat) : list (AccidentEvent N) :=
  map (fun p => event_of os base_name fps (fst p) (snd p))
      (combine (seq first_id (List.length frames)) frames).

(** What an entry point hands back agrees with what it did: a returned log
    path names the one CSV file written, whose data rows are as many as the
    returned snapshot paths, which are the images written; without a log
    path, and when an error is raised, no frame went through the detector
    and no file was written. *)
Definition entry_consistent (r : Entry Frame N) : Prop :=
  match completion r with
  | Returned (snaps, Some csv) =>
      (exists rows,
         csv_writes (effects r) = [(csv, header_row :: rows)] /\
         List.length rows = List.length snaps) /\
      imwrites (effects r) = snaps
  | Returned (snaps, None) =>
      snaps = [] /\ inferred (effects r) = [] /\
      csv_writes (effects r) = [] /\ imwrites (effects r) = []
  | Raised _ =>
      inferred (effects r) = [] /\
      csv_writes (effects r) = [] /\ imwrites (effects r) = []
  end.

(** At most one capture is opened; it is released, once, exactly when the
    call returns a log path. *)
Definition capture_released (r : Entry Frame N) : Prop :=
  List.length (opens (effects r)) <= 1 /\
  releases (effects r)
  = match completion r with
    | Returned (_, Some _) => opens (effects r)
    | _ => []
    end.

(** The items of a generator after its first [None]. *)
Fixpoint after_none (gen : list (option Frame)) : list (option Frame) :=
  match gen with
  | [] => []
  | None :: rest => rest
  | Some _ :: rest => after_none rest
  end.

End MoreVocabulary.

(** *** Rounded arithmetic *)

Section Rounding.
Context {N : Type} `{PyNum N}.

(** [val] gives the exact value of a number.  An operation is rounded
    when its result is within the relative error [2^-52] (one unit in the
    last of the 53 places of a double) of the exact result of the operation
    on the values of its arguments: what binary64 arithmetic gives while no
    overflow or underflow occurs.  (Stated for a non-negative exact
    result.) *)
Definition unit_roundoff : Q := 1 # 4503599627370496.

Definition rounded_from (val : N -> Q) (exact : Q) (computed : N) : Prop :=
  (exact * (1 - unit_roundoff) <= val computed
   /\ val computed <= exact * (1 + unit_roundoff))%Q.

(** The divisor of [compute_iou] when both boxes are one box of area [a]. *)
Definition self_union (a : N) : N := add (sub (add a a) a) eps.

(** The four operations between the area [a] of a box and its overlap with
    itself are rounded. *)
Definition self_overlap_rounded (val : N -> Q) (a : N) : Prop :=
  rounded_from val (val a + val a) (add a a) /\
  rounded_from val (val (add a a) - val a) (sub (add a a) a) /\
  rounded_from val (val (sub (add a a) a) + val eps) (self_union a) /\
  rounded_from val (val a / val (self_union a)) (div a (self_union a)).

End Rounding.

(** *** Boxes of doubles *)

Module DemoF.

Definition unit_box : Box float := (mkBox 0 0 1 1)%float.
Definition nan_box : Box float := (mkBox nan 0 1 1)%float.
Definition ten : Box float := (mkBox 0 0 10 10)%float.
Definition thirteen : Box float := (mkBox 0 0 13 13)%float.
(** A box of 0.001 by 0.001. *)
Definition speck : Box float :=
  (mkBox 0 0 0x1.0624dd2f1a9fcp-10 0x1.0624dd2f1a9fcp-10)%float.
Definition large : Box float := (mkBox 0 0 131072 131072)%float.
(** A box of 1e200 by 1e200. *)
Definition huge : Box float :=
  (mkBox 0 0 0x1.4e718d7d7625ap+664 0x1.4e718d7d7625ap+664)%float.

End DemoF.

(** ** Part II: properties *)

(** *** Geometry over the rationals *)

Section GeometryQ.
Local Open Scope Q_scope.

Lemma Qltb_lt (a b : Q) : Qltb a b = true <-> a < b.
Proof.
  unfold Qltb. rewrite Qlt_alt.
  destruct (a ?= b); split; congruence.
Qed.

Lemma py_max_Qmax (a b : Q) : py_max a b == Qmax a b.
Proof.
  unfold py_max, gtb; cbn.
  destruct (Qltb a b) eqn:E.
  - apply Qltb_lt in E. symmetry. apply Q.max_r. now apply Qlt_le_weak.
  - symmetry. apply Q.max_l. apply Qnot_lt_le. intro L.
    apply Qltb_lt in L. congruence.
Qed.

Lemma py_min_Qmin (a b : Q) : py_min a b == Qmin a b.
Proof.
  unfold py_min; cbn.
  destruct (Qltb b a) eqn:E.
  - apply Qltb_lt in E. symmetry. apply Q.min_r. now apply Qlt_le_weak.
  - symmetry. apply Q.min_l. apply Qnot_lt_le. intro L.
    apply Qltb_lt in L. congruence.
Qed.

#[local] Instance py_max_proper : Proper (Qeq ==> Qeq ==> Qeq) (py_max (N := Q)).
Proof. intros a a' Ha b b' Hb. now rewrite !py_max_Qmax, Ha, Hb. Qed.

#[local] Instance py_min_proper : Proper (Qeq ==> Qeq ==> Qeq) (py_min (N := Q)).
Proof. intros a a' Ha b b' Hb. now rewrite !py_min_Qmin, Ha, Hb. Qed.

Lemma py_max_zero_nonneg (a : Q) : 0 <= py_max 0 a.
Proof. rewrite py_max_Qmax. apply Q.le_max_l. Qed.

Lemma py_max_zero_pos (a : Q) : 0 < a -> py_max 0 a == a.
Proof.
  intro L. rewrite py_max_Qmax. apply Q.max_r. now apply Qlt_le_weak.
Qed.

Lemma clamped_area_nonneg (x1 y1 x2 y2 : Q) : 0 <= clamped_area x1 y1 x2 y2.
Proof.
  unfold clamped_area; cbn [mul sub zero Q_PyNum].
  apply Qmult_le_0_compat; apply py_max_zero_nonneg.
Qed.

(** The value of [compute_iou] with Python's [max] and [min] replaced by
    the mathematical ones. *)
Lemma compute_iou_Q (a b : Box Q) :
  compute_iou a b ==
  (Qmax 0 (Qmin (bx2 a) (bx2 b) - Qmax (bx1 a) (bx1 b))
   * Qmax 0 (Qmin (by2 a) (by2 b) - Qmax (by1 a) (by1 b)))
  / (Qmax 0 (bx2 a - bx1 a) * Qmax 0 (by2 a - by1 a)
     + Qmax 0 (bx2 b - bx1 b) * Qmax 0 (by2 b - by1 b)
     - Qmax 0 (Qmin (bx2 a) (bx2 b) - Qmax (bx1 a) (bx1 b))
       * Qmax 0 (Qmin (by2 a) (by2 b) - Qmax (by1 a) (by1 b))
     + eps).
Proof.
  unfold compute_iou, clamped_area.
  cbn [add sub mul div zero eps Q_PyNum].
  now rewrite !py_max_Qmax, !py_min_Qmin.
Qed.

(** Over the exact rationals [compute_iou] is symmetric in its two
    boxes. *)
Theorem compute_iou_symmetric (a b : Box Q) :
  compute_iou a b == compute_iou b a.
Proof.
  rewrite !compute_iou_Q.
  rewrite (Q.min_comm (bx2 b) (bx2 a)), (Q.max_comm (bx1 b) (bx1 a)),
          (Q.min_comm (by2 b) (by2 a)), (Q.max_comm (by1 b) (by1 a)).
  rewrite (Qplus_comm (Qmax 0 (bx2 b - bx1 b) * Qmax 0 (by2 b - by1 b))).
  reflexivity.
Qed.

(** C8.  The clamped area [max(0, x2-x1) * max(0, y2-y1)] is never
    negative, whatever the four coordinates are (in particular when
    [x2 < x1] or [y2 < y1]); hence every box the detection filter produces
    carries a non-negative [area]. *)
Theorem clamped_area_never_negative :
  (forall x1 y1 x2 y2 : Q, 0 <= clamped_area x1 y1 x2 y2) /\
  (forall (Frame : Type) (model : Detector Frame Q)
          (boxes : list (RawDetection Q)),
     Forall (fun vb => 0 <= area vb) (vehicle_boxes model boxes)).
Proof.
  split.
  - apply clamped_area_nonneg.
  - intros Frame model boxes. induction boxes as [|box rest IH]; cbn [vehicle_boxes].
    + constructor.
    + destruct (negb (in_vehicle_classes (names model (cls box)))).
      * exact IH.
      * constructor; [apply clamped_area_nonneg | exact IH].
Qed.

(** A degenerate box has area exactly zero. *)
Lemma clamped_area_degenerate (x1 y1 x2 y2 : Q) :
  x2 <= x1 \/ y2 <= y1 -> clamped_area x1 y1 x2 y2 == 0.
Proof.
  intros D. unfold clamped_area; cbn [mul sub zero Q_PyNum].
  rewrite !py_max_Qmax.
  destruct D as [D|D].
  - rewrite (Q.max_l 0 (x2 - x1)) by lra. ring.
  - rewrite (Q.max_l 0 (y2 - y1)) by lra. ring.
Qed.

Lemma compute_iou_self (A : Box Q) :
  bx1 A < bx2 A -> by1 A < by2 A ->
  compute_iou A A ==
  ((bx2 A - bx1 A) * (by2 A - by1 A))
  / ((bx2 A - bx1 A) * (by2 A - by1 A) + eps).
Proof.
  intros W Hh. rewrite compute_iou_Q.
  rewrite !Q.max_id, !Q.min_id.
  rewrite (Q.max_r 0 (bx2 A - bx1 A)) by lra.
  rewrite (Q.max_r 0 (by2 A - by1 A)) by lra.
  assert (P : 0 < (bx2 A - bx1 A) * (by2 A - by1 A)).
  { apply Qmult_lt_0_compat; lra. }
  cbn [eps Q_PyNum]. field. lra.
Qed.

(** Over the exact rationals, for a box [A] of positive width and height
    and area [a], [compute_iou(A, A)] is [a / (a + 1e-6)]: strictly between
    0 and 1, short of 1 by [1e-6 / (a + 1e-6)], which is below [1e-6] as
    soon as the area is at least 1. *)
Theorem compute_iou_self_near_one (A : Box Q) :
  bx1 A < bx2 A -> by1 A < by2 A ->
  let a := (bx2 A - bx1 A) * (by2 A - by1 A) in
  0 < compute_iou A A < 1 /\
  1 - compute_iou A A == eps / (a + eps) /\
  (1 <= a -> 1 - compute_iou A A < eps).
Proof.
  intros W Hh a.
  assert (P : 0 < a) by (apply Qmult_lt_0_compat; lra).
  assert (E : compute_iou A A == a / (a + eps)) by now apply compute_iou_self.
  assert (Epos : 0 < a + eps) by (cbn [eps Q_PyNum]; lra).
  rewrite E. repeat split.
  - apply Qlt_shift_div_l; [exact Epos | lra].
  - apply Qlt_shift_div_r; [exact Epos | cbn [eps Q_PyNum]; lra].
  - cbn [eps Q_PyNum] in *. field. lra.
  - intro L.
    setoid_replace (1 - a / (a + eps)) with (eps / (a + eps))
      by (cbn [eps Q_PyNum] in *; field; lra).
    apply Qlt_shift_div_r; [exact Epos |].
    cbn [eps Q_PyNum] in *. lra.
Qed.

End GeometryQ.

(** *** The overlap-and-growth search *)

Section Heuristic.
Context {N : Type} `{PyNum N}.
Variable accident_iou_thres area_growth_factor : N.

#[local] Abbreviation trigger := (trigger_pair accident_iou_thres area_growth_factor).
#[local] Abbreviation scan_prev' := (scan_prev accident_iou_thres area_growth_factor).
#[local] Abbreviation scan_curr' := (scan_curr accident_iou_thres area_growth_factor).

Lemma scan_prev_cons (cb pb : VehicleBox N) (rest : list (VehicleBox N)) :
  (trigger cb pb /\ scan_prev' cb (pb :: rest) = (true, [(cb, pb)])) \/
  (~ trigger cb pb /\
   scan_prev' cb (pb :: rest) =
   (fst (scan_prev' cb rest), (cb, pb) :: snd (scan_prev' cb rest))).
Proof.
  unfold trigger_pair. cbn [scan_prev].
  destruct (geb (compute_iou (coords cb) (coords pb)) accident_iou_thres) eqn:E1;
  destruct (gtb (area pb) zero) eqn:E2; cbn [andb];
  try (right; split; [intros (A & B & C); congruence | reflexivity]).
  destruct (geb (div (area cb) (add (area pb) eps)) area_growth_factor) eqn:E3.
  - left. auto.
  - right. split; [intros (A & B & C); congruence | reflexivity].
Qed.

Lemma scan_prev_found (cb : VehicleBox N) (prev : list (VehicleBox N)) :
  fst (scan_prev' cb prev) = true ->
  exists p1 pb p2,
    prev = p1 ++ pb :: p2 /\ trigger cb pb /\
    Forall (fun p => ~ trigger cb p) p1 /\
    snd (scan_prev' cb prev) = map (pair cb) p1 ++ [(cb, pb)].
Proof.
  induction prev as [|pb rest IH]; [discriminate|].
  destruct (scan_prev_cons cb pb rest) as [[T E]|[T E]]; rewrite E; cbn [fst snd].
  - intros _. exists [], pb, rest.
    split; [reflexivity|]. split; [exact T|]. split; [constructor|reflexivity].
  - intros F. destruct (IH F) as (p1 & pb' & p2 & -> & T' & A & S).
    exists (pb :: p1), pb', p2.
    split; [reflexivity|]. split; [exact T'|]. split; [now constructor|].
    cbn [map app]. now rewrite S.
Qed.

Lemma scan_prev_missed (cb : VehicleBox N) (prev : list (VehicleBox N)) :
  fst (scan_prev' cb prev) = false ->
  Forall (fun p => ~ trigger cb p) prev /\
  snd (scan_prev' cb prev) = map (pair cb) prev.
Proof.
  induction prev as [|pb rest IH]; [now split|].
  destruct (scan_prev_cons cb pb rest) as [[T E]|[T E]]; rewrite E; cbn [fst snd].
  - discriminate.
  - intros F. destruct (IH F) as [A S]. split; [now constructor|].
    cbn [map]. now rewrite S.
Qed.

Lemma scan_curr_found (curr prev : list (VehicleBox N)) :
  fst (scan_curr' curr prev) = true ->
  exists c1 cb c2 p1 pb p2,
    curr = c1 ++ cb :: c2 /\ prev = p1 ++ pb :: p2 /\ trigger cb pb /\
    Forall (fun cp => ~ trigger (fst cp) (snd cp))
           (list_prod c1 prev ++ map (pair cb) p1) /\
    snd (scan_curr' curr prev) =
    (list_prod c1 prev ++ map (pair cb) p1) ++ [(cb, pb)].
Proof.
  induction curr as [|cb rest IH]; [discriminate|].
  cbn [scan_curr].
  destruct (fst (scan_prev' cb prev)) eqn:F; cbn [fst snd].
  - intros _. destruct (scan_prev_found _ _ F) as (p1 & pb & p2 & E & T & A & S).
    exists [], cb, rest, p1, pb, p2.
    split; [reflexivity|]. split; [exact E|]. split; [exact T|].
    split; [|exact S].
    cbn [list_prod app]. apply Forall_map. exact A.
  - intros G. destruct (IH G) as (c1 & cb' & c2 & p1 & pb & p2 & -> & E & T & A & S).
    destruct (scan_prev_missed _ _ F) as [A0 S0].
    exists (cb :: c1), cb', c2, p1, pb, p2.
    split; [reflexivity|]. split; [exact E|]. split; [exact T|]. split.
    + cbn [list_prod]. rewrite <- app_assoc. apply Forall_app. split; [|exact A].
      apply Forall_map. exact A0.
    + rewrite S, S0. cbn [list_prod]. now rewrite <- !app_assoc.
Qed.

Lemma scan_curr_missed (curr prev : list (VehicleBox N)) :
  fst (scan_curr' curr prev) = false ->
  Forall (fun cp => ~ trigger (fst cp) (snd cp)) (list_prod curr prev) /\
  snd (scan_curr' curr prev) = list_prod curr prev.
Proof.
  induction curr as [|cb rest IH]; [now split|].
  cbn [scan_curr].
  destruct (fst (scan_prev' cb prev)) eqn:F; cbn [fst snd]; [discriminate|].
  intros G. destruct (IH G) as [A S].
  destruct (scan_prev_missed _ _ F) as [A0 S0].
  cbn [list_prod]. split.
  - apply Forall_app. split; [|exact A]. apply Forall_map. exact A0.
  - now rewrite S, S0.
Qed.

Lemma list_prod_split (c1 c2 : list (VehicleBox N)) (cb : VehicleBox N)
  (p1 p2 : list (VehicleBox N)) (pb : VehicleBox N) :
  list_prod (c1 ++ cb :: c2) (p1 ++ pb :: p2) =
  (list_prod c1 (p1 ++ pb :: p2) ++ map (pair cb) p1)
  ++ (cb, pb) :: (map (pair cb) p2 ++ list_prod c2 (p1 ++ pb :: p2)).
Proof.
  induction c1 as [|c c1 IH]; cbn [list_prod app].
  - rewrite map_app. cbn [map]. now rewrite <- app_assoc.
  - rewrite IH. now rewrite <- !app_assoc.
Qed.

(** C1.  A frame is flagged exactly when some current box and some
    previous box form a trigger pair.  When it is flagged, the search ran
    over the pairs in iteration order (current boxes outermost) up to and
    including the first trigger pair and over none after it; when it is not
    flagged, it ran over every pair. *)
Theorem event_frame_iff_trigger_pair (curr prev : list (VehicleBox N)) :
  (accident_in_this_frame accident_iou_thres area_growth_factor curr prev = true
   <-> exists c p, In c curr /\ In p prev /\ trigger c p)
  /\
  (accident_in_this_frame accident_iou_thres area_growth_factor curr prev = true
   -> exists earlier c p later,
        list_prod curr prev = earlier ++ (c, p) :: later /\
        pairs_examined accident_iou_thres area_growth_factor curr prev
          = earlier ++ [(c, p)] /\
        trigger c p /\
        Forall (fun cp => ~ trigger (fst cp) (snd cp)) earlier)
  /\
  (accident_in_this_frame accident_iou_thres area_growth_factor curr prev = false
   -> pairs_examined accident_iou_thres area_growth_factor curr prev
        = list_prod curr prev).
Proof.
  unfold accident_in_this_frame, pairs_examined.
  split; [split|split].
  - intros F.
    destruct (scan_curr_found _ _ F) as (c1 & cb & c2 & p1 & pb & p2 & -> & -> & T & _).
    exists cb, pb. split; [apply in_elt|]. split; [apply in_elt|exact T].
  - intros (c & p & Ic & Ip & T).
    destruct (fst (scan_curr' curr prev)) eqn:F; [reflexivity|].
    destruct (scan_curr_missed _ _ F) as [A _].
    rewrite Forall_forall in A.
    exfalso. apply (A (c, p)); [|exact T].
    apply in_prod; assumption.
  - intros F.
    destruct (scan_curr_found _ _ F) as (c1 & cb & c2 & p1 & pb & p2 & -> & -> & T & A & S).
    eexists _, cb, pb, _. split; [apply list_prod_split|].
    split; [exact S|]. split; [exact T|exact A].
  - intros F. now destruct (scan_curr_missed _ _ F).
Qed.

Lemma no_previous_no_event (curr : list (VehicleBox N)) :
  accident_in_this_frame accident_iou_thres area_growth_factor curr [] = false.
Proof.
  unfold accident_in_this_frame.
  induction curr as [|cb rest IH]; [reflexivity|].
  cbn [scan_curr scan_prev fst snd]. exact IH.
Qed.

Lemma no_current_no_event (prev : list (VehicleBox N)) :
  accident_in_this_frame accident_iou_thres area_growth_factor [] prev = false.
Proof. reflexivity. Qed.

End Heuristic.

(** *** Reading effects off a trace *)

Section Traces.
Context {Frame N : Type}.

Lemma inferred_app (t1 t2 : list (Effect Frame N)) :
  inferred (t1 ++ t2) = inferred t1 ++ inferred t2.
Proof.
  induction t1 as [|e t1 IH]; [reflexivity|].
  destruct e; cbn [app inferred]; rewrite IH; reflexivity.
Qed.

Lemma csv_writes_app (t1 t2 : list (Effect Frame N)) :
  csv_writes (t1 ++ t2) = csv_writes t1 ++ csv_writes t2.
Proof.
  induction t1 as [|e t1 IH]; [reflexivity|].
  destruct e; cbn [app csv_writes]; rewrite IH; reflexivity.
Qed.

Lemma inferred_prints (lines : list string) :
  inferred (map (Print (Frame := Frame) (N := N)) lines) = [].
Proof. induction lines; [reflexivity | exact IHlines]. Qed.

Lemma csv_writes_prints (lines : list string) :
  csv_writes (map (Print (Frame := Frame) (N := N)) lines) = [].
Proof. induction lines; [reflexivity | exact IHlines]. Qed.

End Traces.

Section TracesOfDrawing.
Context {Frame N : Type} `{PyNum N}.

Lemma inferred_draw_boxes (img : Frame) (curr : list (VehicleBox N)) :
  inferred (draw_boxes img curr) = [].
Proof. induction curr as [|cb rest IH]; [reflexivity | exact IH]. Qed.

Lemma csv_writes_draw_boxes (img : Frame) (curr : list (VehicleBox N)) :
  csv_writes (draw_boxes img curr) = [].
Proof. induction curr as [|cb rest IH]; [reflexivity | exact IH]. Qed.

End TracesOfDrawing.

(** *** The frame loop *)

Section Loop.
Context {Frame N : Type} `{PyNum N}.
Variable model : Detector Frame N.
Variable os : Platform Frame N.
Variable base_name : string.
Variable fps conf_thres accident_iou_thres area_growth_factor : N.

#[local] Abbreviation step :=
  (process_frame model os base_name fps conf_thres accident_iou_thres
                 area_growth_factor).
#[local] Abbreviation loop :=
  (run_loop model os base_name fps conf_thres accident_iou_thres
            area_growth_factor).
#[local] Abbreviation boxes_of img :=
  (vehicle_boxes model (infer model img conf_thres)).
#[local] Abbreviation flag_of img st :=
  (accident_in_this_frame accident_iou_thres area_growth_factor
     (boxes_of img) (prev_boxes st)).

(** **** One iteration *)

Lemma step_prev_boxes (img : Frame) (idx : nat) (st : RunState Frame N) :
  prev_boxes (step img idx st) = boxes_of img.
Proof. unfold process_frame. destruct (flag_of img st); reflexivity. Qed.

Lemma step_frame_idx (img : Frame) (idx : nat) (st : RunState Frame N) :
  frame_idx (step img idx st) = idx.
Proof. unfold process_frame. destruct (flag_of img st); reflexivity. Qed.

Lemma step_quiet (img : Frame) (idx : nat) (st : RunState Frame N) :
  flag_of img st = false ->
  accident_events (step img idx st) = accident_events st /\
  snapshot_paths (step img idx st) = snapshot_paths st /\
  accident_counter (step img idx st) = accident_counter st.
Proof. unfold process_frame. intros ->. repeat split. Qed.

Lemma step_event (img : Frame) (idx : nat) (st : RunState Frame N) :
  flag_of img st = true ->
  exists ev,
    event_id ev = S (accident_counter st) /\ frame ev = idx /\
    accident_events (step img idx st) = accident_events st ++ [ev] /\
    snapshot_paths (step img idx st) = snapshot_paths st ++ [snapshot_path ev] /\
    accident_counter (step img idx st) = S (accident_counter st).
Proof.
  unfold process_frame. intros ->. eexists. cbn.
  split; [|split; [|split; [reflexivity|split; reflexivity]]]; reflexivity.
Qed.

Lemma step_inferred (img : Frame) (idx : nat) (st : RunState Frame N) :
  inferred (trace (step img idx st)) = inferred (trace st) ++ [img].
Proof.
  unfold process_frame.
  destruct (flag_of img st); cbn [trace];
    rewrite ?inferred_app; cbn [inferred];
    rewrite ?inferred_app, inferred_draw_boxes;
    destruct (idx mod 50 =? 0)%nat; cbn [inferred app];
    rewrite ?app_nil_r; reflexivity.
Qed.

Lemma step_csv_writes (img : Frame) (idx : nat) (st : RunState Frame N) :
  csv_writes (trace (step img idx st)) = csv_writes (trace st).
Proof.
  unfold process_frame.
  destruct (flag_of img st); cbn [trace];
    rewrite ?csv_writes_app; cbn [csv_writes];
    rewrite ?csv_writes_app, csv_writes_draw_boxes;
    destruct (idx mod 50 =? 0)%nat; cbn [csv_writes app];
    rewrite ?app_nil_r; reflexivity.
Qed.

(** **** The event log *)

Lemma step_log_consistent (img : Frame) (idx : nat) (st : RunState Frame N) :
  log_consistent st -> log_consistent (step img idx st).
Proof.
  intros (L & I & P). unfold log_consistent.
  destruct (flag_of img st) eqn:F.
  - destruct (step_event img idx st F) as (ev & Eid & _ & -> & -> & ->).
    rewrite !length_app, map_app, seq_S, I, L, P.
    cbn [map List.length]. rewrite Eid.
    split; [lia|]. split; [reflexivity|lia].
  - destruct (step_quiet img idx st F) as (-> & -> & ->). auto.
Qed.

Lemma loop_log_consistent (max_frames : option Z) (gen_end : list string)
  (gen : list (option Frame)) (st : RunState Frame N) :
  log_consistent st -> log_consistent (fst (loop max_frames gen_end gen st)).
Proof.
  revert st. induction gen as [|[img|] rest IH]; intros st C; cbn [run_loop].
  - exact C.
  - destruct (over_budget max_frames (S (frame_idx st))); [exact C|].
    apply IH. now apply step_log_consistent.
  - exact C.
Qed.

(** C3.  Whatever prefix of the frame sequence has been processed, the
    number of collected events equals the event counter, and their
    [event_id]s are exactly 1, 2, ..., k in this order, k being the
    counter; the frame indices of the events play no part. *)
Theorem event_ids_count_up (max_frames : option Z)
  (gen : Generator Frame N) (n : nat) :
  let st :=
    final (analyze_frames model os (mkGen (firstn n (items gen)) (at_end gen))
             base_name fps conf_thres accident_iou_thres area_growth_factor
             max_frames) in
  List.length (accident_events st) = accident_counter st /\
  map (@event_id N) (accident_events st) = seq 1 (accident_counter st).
Proof.
  cbn zeta. unfold analyze_frames, finish.
  cbn [final items at_end accident_events accident_counter].
  assert (C : log_consistent
                (fst (loop max_frames (at_end gen) (firstn n (items gen))
                        initial_state))).
  { apply loop_log_consistent. repeat split. }
  destruct C as (L & I & _). split; assumption.
Qed.

(** **** The one-frame memory *)

Lemma loop_last_frame (gen_end : list string) (frames : list Frame)
  (img : Frame) (st : RunState Frame N) :
  prev_boxes (fst (loop None gen_end (map Some (frames ++ [img])) st))
  = boxes_of img.
Proof.
  revert st. induction frames as [|f frames IH]; intros st.
  - cbn. apply step_prev_boxes.
  - cbn [app map run_loop over_budget]. apply IH.
Qed.

Lemma loop_after_first_frame (max_frames : option Z) (gen_end : list string)
  (gen : list (option Frame)) (st : RunState Frame N) :
  after_first_frame st ->
  after_first_frame (fst (loop max_frames gen_end gen st)).
Proof.
  revert st. induction gen as [|[img|] rest IH]; intros st [A Z0]; cbn [run_loop].
  - split; assumption.
  - destruct (over_budget max_frames (S (frame_idx st))).
    + split; [exact A | discriminate].
    + apply IH. split.
      * destruct (flag_of img st) eqn:F.
        -- destruct (step_event img (S (frame_idx st)) st F)
             as (ev & _ & Fr & -> & _).
           apply Forall_app. split; [exact A|].
           constructor; [|constructor]. rewrite Fr.
           destruct (frame_idx st) eqn:K; [|lia].
           rewrite (Z0 eq_refl) in F.
           now rewrite no_previous_no_event in F.
        -- now destruct (step_quiet img (S (frame_idx st)) st F) as (-> & _).
      * rewrite step_frame_idx. discriminate.
  - split; assumption.
Qed.

(** C4.  After a frame has been processed the memory [prev_boxes] is that
    frame's filtered vehicle boxes, flagged or not, for one iteration and
    for the frame the loop processed last.  No run has an event on its
    first frame.  With no previous boxes or no current boxes an iteration
    adds no event, and the memory is still replaced. *)
Theorem memory_is_latest_frame :
  (forall img idx st, prev_boxes (step img idx st) = boxes_of img) /\
  (forall gen_end frames img st,
     prev_boxes (fst (loop None gen_end (map Some (frames ++ [img])) st))
     = boxes_of img) /\
  (forall gen max_frames,
     Forall (fun ev => 2 <= frame ev)
       (accident_events
          (final (analyze_frames model os gen base_name fps conf_thres
                    accident_iou_thres area_growth_factor max_frames)))) /\
  (forall img idx st,
     prev_boxes st = [] \/ boxes_of img = [] ->
     accident_events (step img idx st) = accident_events st /\
     accident_counter (step img idx st) = accident_counter st /\
     prev_boxes (step img idx st) = boxes_of img).
Proof.
  split; [|split; [|split]].
  - apply step_prev_boxes.
  - intros. apply loop_last_frame.
  - intros gen max_frames. unfold analyze_frames, finish.
    cbn [final accident_events].
    apply loop_after_first_frame. split; [constructor | reflexivity].
  - intros img idx st E.
    assert (F : flag_of img st = false).
    { destruct E as [E|E]; rewrite E.
      - apply no_previous_no_event.
      - apply no_current_no_event. }
    destruct (step_quiet img idx st F) as (-> & _ & ->).
    repeat split. apply step_prev_boxes.
Qed.

(** **** The frame budget *)

Lemma over_budget_iff (m : Z) (idx : nat) :
  (0 <= m)%Z -> over_budget (Some m) idx = true <-> Z.to_nat m < idx.
Proof.
  intros M. cbn [over_budget]. rewrite Z.gtb_ltb, Z.ltb_lt. lia.
Qed.

Lemma loop_budget (m : Z) (gen_end : list string) (gen : list (option Frame)) :
  (0 <= m)%Z ->
  forall (d : nat) (st : RunState Frame N),
    frame_idx st + d = Z.to_nat m ->
    inferred (trace (fst (loop (Some m) gen_end gen st)))
    = inferred (trace st) ++ firstn d (leading_frames gen) /\
    (exists pulled,
       gen = pulled ++ snd (loop (Some m) gen_end gen st) /\
       List.length pulled <= d + 1) /\
    (d < List.length (leading_frames gen) ->
     snd (loop (Some m) gen_end gen st) = skipn (d + 1) gen /\
     frame_idx (fst (loop (Some m) gen_end gen st)) = Z.to_nat m + 1).
Proof.
  intros M. induction gen as [|[img|] rest IH]; intros d st E.
  - cbn [run_loop fst snd trace leading_frames].
    rewrite inferred_app, inferred_prints, firstn_nil.
    split; [reflexivity|]. split.
    + exists []. split; [reflexivity | cbn; lia].
    + cbn. lia.
  - cbn [run_loop leading_frames].
    destruct (over_budget (Some m) (S (frame_idx st))) eqn:O.
    + apply over_budget_iff in O; [|exact M].
      assert (d = 0) by lia. subst d.
      cbn [fst snd trace frame_idx firstn].
      rewrite inferred_app. cbn [inferred]. split; [reflexivity|]. split.
      * exists [Some img]. split; [reflexivity | cbn; lia].
      * intros _. split; [reflexivity | lia].
    + assert (Z.to_nat m < S (frame_idx st) -> False) as NO.
      { intro L. apply over_budget_iff in L; [congruence | exact M]. }
      destruct d as [|d]; [exfalso; apply NO; lia|].
      destruct (IH d (step img (S (frame_idx st)) st)) as (I & (pulled & G & L) & X).
      { rewrite step_frame_idx. lia. }
      rewrite I, step_inferred, <- app_assoc. cbn [firstn app].
      split; [reflexivity|]. split.
      * exists (Some img :: pulled). split; [cbn [app]; congruence | cbn; lia].
      * intros D. cbn [List.length] in D. apply X. lia.
  - cbn [run_loop fst snd leading_frames]. rewrite firstn_nil, app_nil_r.
    split; [reflexivity|]. split.
    + exists [None]. split; [reflexivity | cbn; lia].
    + cbn. lia.
Qed.

(** C2, as the code has it.  With [max_frames = m > 0] the detector runs on
    the first [m] frames the generator yields (on all of them if there are
    fewer, on none after a [None]) and on no other.  The loop pulls at most
    [m + 1] items: when the generator has an [(m+1)]-th frame, that frame
    is pulled, counted in [frame_idx] and dropped unprocessed, and every
    item after it stays in the generator. *)
Theorem max_frames_budget (m : Z) (gen : Generator Frame N) :
  (0 < m)%Z ->
  let run :=
    analyze_frames model os gen base_name fps conf_thres accident_iou_thres
                   area_growth_factor (Some m) in
  inferred (trace (final run))
  = firstn (Z.to_nat m) (leading_frames (items gen)) /\
  (exists pulled,
     items gen = pulled ++ unpulled run /\
     List.length pulled <= Z.to_nat m + 1) /\
  (Z.to_nat m < List.length (leading_frames (items gen)) ->
   unpulled run = skipn (Z.to_nat m + 1) (items gen) /\
   frame_idx (final run) = Z.to_nat m + 1).
Proof.
  intros M run. subst run. unfold analyze_frames, finish.
  cbn [final unpulled trace frame_idx].
  destruct (loop_budget (at_end gen) (items gen) (m := m) ltac:(lia)
              (Z.to_nat m) initial_state eq_refl) as (I & P & X).
  rewrite inferred_app, I. cbn [inferred initial_state trace app].
  rewrite app_nil_r. auto.
Qed.

(** **** The CSV epilogue *)

Lemma loop_csv_writes (max_frames : option Z) (gen_end : list string)
  (gen : list (option Frame)) (st : RunState Frame N) :
  csv_writes (trace (fst (loop max_frames gen_end gen st)))
  = csv_writes (trace st).
Proof.
  revert st. induction gen as [|[img|] rest IH]; intros st; cbn [run_loop].
  - cbn [fst trace]. now rewrite csv_writes_app, csv_writes_prints, app_nil_r.
  - destruct (over_budget max_frames (S (frame_idx st))).
    + cbn [fst trace]. rewrite csv_writes_app. cbn. now rewrite app_nil_r.
    + rewrite IH. apply step_csv_writes.
  - reflexivity.
Qed.

Lemma csv_rows_table (events : list (AccidentEvent N)) :
  csv_rows events = header_row :: map (@event_row N) events.
Proof. destruct events; reflexivity. Qed.

Lemma analyze_csv_writes (max_frames : option Z) (gen : Generator Frame N) :
  csv_writes
    (trace (final (analyze_frames model os gen base_name fps conf_thres
                     accident_iou_thres area_growth_factor max_frames)))
  = [(log_csv_path os base_name,
      header_row ::
      map (@event_row N)
        (accident_events
           (final (analyze_frames model os gen base_name fps conf_thres
                     accident_iou_thres area_growth_factor max_frames))))].
Proof.
  unfold analyze_frames, finish. cbn [final trace accident_events].
  rewrite csv_writes_app, loop_csv_writes. cbn [csv_writes initial_state trace app].
  now rewrite csv_rows_table.
Qed.

(** C5.  Every run of [analyze_frames] writes exactly one CSV file.  Its
    path is [os.path.join("outputs", base_name + "_accident_log.csv")]; its
    first row is the header [event_id, frame, time_seconds, time_hhmmss,
    snapshot_path], followed by one row per collected event in that column
    order; with no event the file is the header row alone. *)
Theorem csv_log_written_once (max_frames : option Z) (gen : Generator Frame N) :
  let run :=
    analyze_frames model os gen base_name fps conf_thres accident_iou_thres
                   area_growth_factor max_frames in
  csv_writes (trace (final run))
  = [(path_join os "outputs" (base_name ++ "_accident_log.csv")%string,
      header_row :: map (@event_row N) (accident_events (final run)))] /\
  (accident_events (final run) = [] ->
   csv_writes (trace (final run))
   = [(path_join os "outputs" (base_name ++ "_accident_log.csv")%string,
       [header_row])]).
Proof.
  cbn zeta. split.
  - apply analyze_csv_writes.
  - intros E. rewrite analyze_csv_writes, E. reflexivity.
Qed.

(** **** A [None] from the generator *)

Lemma loop_none_like_end (max_frames : option Z) (gen_end : list string)
  (pre post : list (option Frame)) (st : RunState Frame N) :
  fst (loop max_frames gen_end (pre ++ None :: post) st)
  = fst (loop max_frames [] pre st).
Proof.
  revert st. induction pre as [|[img|] pre IH]; intros st; cbn [app run_loop].
  - destruct st; cbn. now rewrite app_nil_r.
  - destruct (over_budget max_frames (S (frame_idx st))); [reflexivity|].
    apply IH.
  - reflexivity.
Qed.

(** C10.  On a [None] the loop stops at once, with every local variable
    (the frame index among them) and the effects as they were.  A run whose
    generator yields [None] after the items [pre] returns the same value
    and ends in the same state, with the same effects, as a run whose
    generator is exhausted after [pre].  Every run returns the snapshot
    paths and the log path, and has written the CSV log. *)
Theorem none_ends_the_run :
  (forall max_frames gen_end post st,
     loop max_frames gen_end (None :: post) st = (st, post)) /\
  (forall max_frames gen_end pre post,
     let with_none :=
       analyze_frames model os (mkGen (pre ++ None :: post) gen_end) base_name
         fps conf_thres accident_iou_thres area_growth_factor max_frames in
     let exhausted :=
       analyze_frames model os (mkGen pre []) base_name
         fps conf_thres accident_iou_thres area_growth_factor max_frames in
     returned with_none = returned exhausted /\
     final with_none = final exhausted) /\
  (forall max_frames gen,
     let run :=
       analyze_frames model os gen base_name fps conf_thres accident_iou_thres
                      area_growth_factor max_frames in
     returned run = (snapshot_paths (final run), log_csv_path os base_name) /\
     csv_writes (trace (final run))
     = [(log_csv_path os base_name,
         header_row :: map (@event_row N) (accident_events (final run)))]).
Proof.
  split; [|split].
  - reflexivity.
  - intros max_frames gen_end pre post. cbn zeta.
    unfold analyze_frames, finish. cbn [items at_end returned final].
    rewrite loop_none_like_end. split; reflexivity.
  - intros max_frames gen. cbn zeta. split.
    + reflexivity.
    + apply analyze_csv_writes.
Qed.

End Loop.

(** *** The entry points *)

Section EntryPointProperties.
Context {Frame N : Type} `{PyNum N}.
Variable model : Detector Frame N.
Variable os : Platform Frame N.

(** C6, as the code has it.  When the capture cannot be opened,
    [process_webcam] and [process_phone_ip_cam] raise a [RuntimeError] that
    names the source, and [process_uploaded_video] (also when the path does
    not exist) returns [([], None)] without raising.  In all three cases
    the detector has not run on any frame and no CSV log has been
    written. *)
Theorem unopened_source_outcomes :
  (forall duration_sec conf_thres accident_iou area_growth,
     is_opened os (ByIndex 0) = false ->
     let r := process_webcam model os duration_sec conf_thres accident_iou
                             area_growth in
     completion r = Raised "Could not open laptop webcam (index 0)." /\
     inferred (effects r) = [] /\ csv_writes (effects r) = []) /\
  (forall url duration_sec conf_thres accident_iou area_growth,
     url <> EmptyString ->
     is_opened os (ByName url) = false ->
     let r := process_phone_ip_cam model os (Some url) duration_sec conf_thres
                                   accident_iou area_growth in
     completion r = Raised (ip_cam_error url) /\
     inferred (effects r) = [] /\ csv_writes (effects r) = []) /\
  (forall video_file conf_thres accident_iou area_growth,
     let video_path :=
       match video_file with VPath s => s | VObject name => name end in
     path_exists os video_path = false \/
     is_opened os (ByName video_path) = false ->
     let r := process_uploaded_video model os (Some video_file) conf_thres
                                     accident_iou area_growth in
     completion r = Returned ([], None) /\
     inferred (effects r) = [] /\ csv_writes (effects r) = []).
Proof.
  split; [|split].
  - intros duration_sec conf_thres accident_iou area_growth E.
    unfold process_webcam. rewrite E. cbn. repeat split.
  - intros url duration_sec conf_thres accident_iou area_growth U E.
    unfold process_phone_ip_cam.
    destruct url as [|a url]; [congruence|].
    rewrite E. cbn. repeat split.
  - intros video_file conf_thres accident_iou area_growth video_path E.
    unfold process_uploaded_video. fold video_path.
    destruct (path_exists os video_path) eqn:P; cbn [negb].
    + destruct E as [E|E]; [discriminate|].
      rewrite E. cbn. repeat split.
    + cbn. repeat split.
Qed.

End EntryPointProperties.

(** *** The scene, evaluated *)

Example demo_two_frames :
  accident_events (final (Demo.run [Some 1; Some 2]%nat None)) =
  [mkEvent 1 2 (8 # 100)%Q "0:00:00" "outputs/frames/clip_accident_1_frame_2.jpg"].
Proof. vm_compute. reflexivity. Qed.

Example demo_same_box_twice :
  accident_events (final (Demo.run [Some 1; Some 1]%nat None)) = [].
Proof. vm_compute. reflexivity. Qed.

(** C1 at the scene: the grown car of frame 2 against the car of frame 1. *)
Lemma event_frame_iff_trigger_pair_witness :
  accident_in_this_frame (1 # 2)%Q (3 # 2)%Q Demo.grown Demo.before = true /\
  exists c p,
    In c Demo.grown /\ In p Demo.before /\
    trigger_pair (1 # 2)%Q (3 # 2)%Q c p.
Proof.
  assert (F : accident_in_this_frame (1 # 2)%Q (3 # 2)%Q Demo.grown Demo.before
              = true) by (vm_compute; reflexivity).
  split; [exact F|].
  exact (proj1 (proj1 (event_frame_iff_trigger_pair (1 # 2)%Q (3 # 2)%Q
                         Demo.grown Demo.before)) F).
Defined.

(** C2 as stated fails: with [max_frames = 1] and three frames on offer the
    loop pulls the second frame as well; only the third stays in the
    generator. *)
Lemma max_frames_pulls_one_more :
  let run := Demo.run [Some 1; Some 2; Some 3] (Some 1%Z) in
  inferred (trace (final run)) = [1] /\
  unpulled run = [Some 3] /\
  unpulled run <> [Some 2; Some 3] /\
  frame_idx (final run) = 2.
Proof.
  vm_compute. repeat split. discriminate.
Qed.

Lemma max_frames_budget_witness :
  (0 < 1)%Z /\
  inferred (trace (final (Demo.run [Some 1; Some 2; Some 3] (Some 1%Z)))) = [1].
Proof.
  split; [reflexivity|].
  exact (proj1 (max_frames_budget Demo.model Demo.studio "clip" 25%Q (1 # 4)%Q
                  (1 # 2)%Q (3 # 2)%Q (mkGen [Some 1; Some 2; Some 3] [])
                  (m := 1%Z) eq_refl)).
Defined.

Lemma memory_is_latest_frame_witness :
  prev_boxes (Demo.first_step) = Demo.before /\
  accident_events (Demo.first_step) = [].
Proof.
  destruct (memory_is_latest_frame Demo.model Demo.studio "clip" 25%Q (1 # 4)%Q
              (1 # 2)%Q (3 # 2)%Q) as (_ & _ & _ & Q4).
  destruct (Q4 1 1 initial_state (or_introl eq_refl)) as (E & _ & P).
  split; [exact P | exact E].
Defined.

Lemma csv_log_written_once_witness :
  accident_events (final (Demo.run [Some 1; Some 1] None)) = [] /\
  csv_writes (trace (final (Demo.run [Some 1; Some 1] None)))
  = [("outputs/clip_accident_log.csv"%string, [header_row])].
Proof.
  assert (E : accident_events (final (Demo.run [Some 1; Some 1] None)) = [])
    by (vm_compute; reflexivity).
  split; [exact E|].
  exact (proj2 (csv_log_written_once Demo.model Demo.studio "clip" 25%Q (1 # 4)%Q
                  (1 # 2)%Q (3 # 2)%Q None (mkGen [Some 1; Some 1] [])) E).
Defined.

(** C6 as stated fails: for a path that does not exist
    [process_uploaded_video] returns normally, it raises no error. *)
Lemma upload_of_missing_file_returns :
  let r := process_uploaded_video Demo.model Demo.nothing_there
             (Some (VPath "missing.mp4")) (1 # 4)%Q (1 # 2)%Q (3 # 2)%Q in
  completion r = Returned ([], None) /\
  (forall message, completion r <> Raised message) /\
  effects r = [].
Proof.
  vm_compute. repeat split. discriminate.
Qed.

Lemma unopened_source_outcomes_witness :
  is_opened Demo.nothing_there (ByIndex 0) = false /\
  completion (process_webcam Demo.model Demo.nothing_there 10%Q (1 # 4)%Q
                             (1 # 2)%Q (3 # 2)%Q)
  = Raised "Could not open laptop webcam (index 0).".
Proof.
  split; [reflexivity|].
  exact (proj1 (proj1 (unopened_source_outcomes Demo.model Demo.nothing_there)
                  10%Q (1 # 4)%Q (1 # 2)%Q (3 # 2)%Q eq_refl)).
Defined.

(** C9 as stated fails: the box [Demo.speck] has positive width and height,
    and its overlap with itself is one half. *)
Lemma compute_iou_self_of_speck :
  (bx1 Demo.speck < bx2 Demo.speck)%Q /\
  (by1 Demo.speck < by2 Demo.speck)%Q /\
  (compute_iou Demo.speck Demo.speck == 1 # 2)%Q /\
  ~ (1 - compute_iou Demo.speck Demo.speck <= 1000 * eps)%Q.
Proof.
  split; [reflexivity|]. split; [reflexivity|]. split; [reflexivity|].
  intro L. apply L. reflexivity.
Qed.

(** ** Part III: further properties of the code *)

(** *** More geometry over the rationals *)

Section MoreGeometryQ.
Local Open Scope Q_scope.

Lemma shift_side (h1 h2 l1 l2 d : Q) :
  Qmin (h1 + d) (h2 + d) - Qmax (l1 + d) (l2 + d) == Qmin h1 h2 - Qmax l1 l2.
Proof. rewrite Q.plus_min_distr_r, Q.plus_max_distr_r. ring. Qed.


End MoreGeometryQ.

(** *** The detection filter *)

Section FilterProperties.
Context {Frame N : Type} `{PyNum N}.
Variable model : Detector Frame N.

Lemma vehicle_boxes_as_filter (boxes : list (RawDetection N)) :
  vehicle_boxes model boxes
  = map (vehicle_of model) (filter (is_vehicle model) boxes).
Proof.
  induction boxes as [|box rest IH]; [reflexivity|].
  cbn [vehicle_boxes filter]. unfold is_vehicle at 1.
  destruct (in_vehicle_classes (names model (cls box))); cbn [negb map].
  - now rewrite IH.
  - exact IH.
Qed.

Lemma in_vehicle_classes_In (l : string) :
  in_vehicle_classes l = true <-> In l VEHICLE_CLASSES.
Proof.
  unfold in_vehicle_classes. rewrite existsb_exists. split.
  - intros (x & I & E). apply String.eqb_eq in E. now subst.
  - intros I. exists l. split; [exact I | apply String.eqb_refl].
Qed.

(** X5.  The detection filter keeps exactly the detections whose class name
    is one of car, motorbike, bus, truck, in their original order; each
    kept box carries its coordinates unchanged, the clamped area of those
    coordinates and its class name; filtering a concatenation is the
    concatenation of the filtered parts. *)
Theorem vehicle_boxes_keeps_vehicles (boxes more : list (RawDetection N)) :
  vehicle_boxes model boxes
  = map (vehicle_of model) (filter (is_vehicle model) boxes) /\
  Forall (fun vb => In (label vb) VEHICLE_CLASSES /\
                    area vb = box_area (coords vb))
         (vehicle_boxes model boxes) /\
  List.length (vehicle_boxes model boxes) <= List.length boxes /\
  vehicle_boxes model (boxes ++ more)
  = vehicle_boxes model boxes ++ vehicle_boxes model more.
Proof.
  split; [apply vehicle_boxes_as_filter|]. split; [|split].
  - rewrite vehicle_boxes_as_filter. apply Forall_map, Forall_forall.
    intros box I. apply filter_In in I. destruct I as [_ V].
    split; [now apply in_vehicle_classes_In | reflexivity].
  - rewrite vehicle_boxes_as_filter, length_map. apply filter_length_le.
  - rewrite !vehicle_boxes_as_filter, filter_app, map_app. reflexivity.
Qed.

End FilterProperties.

(** *** More on the overlap-and-growth search *)

Section MoreHeuristic.
Context {N : Type} `{PyNum N}.
Variable accident_iou_thres area_growth_factor : N.

#[local] Abbreviation hit := (trigger_pair accident_iou_thres area_growth_factor).
#[local] Abbreviation flag :=
  (accident_in_this_frame accident_iou_thres area_growth_factor).

Lemma flag_true_iff (curr prev : list (VehicleBox N)) :
  flag curr prev = true <-> exists c p, In c curr /\ In p prev /\ hit c p.
Proof.
  unfold accident_in_this_frame. split.
  - intros F.
    destruct (scan_curr_found _ _ _ _ F)
      as (c1 & cb & c2 & p1 & pb & p2 & -> & -> & T & _).
    exists cb, pb. split; [apply in_elt|]. split; [apply in_elt|exact T].
  - intros (c & p & Ic & Ip & T).
    destruct (fst (scan_curr accident_iou_thres area_growth_factor curr prev))
      eqn:F; [reflexivity|].
    destruct (scan_curr_missed _ _ _ _ F) as [A _].
    rewrite Forall_forall in A.
    exfalso. apply (A (c, p)); [|exact T].
    apply in_prod; assumption.
Qed.

Lemma flag_false_iff (curr prev : list (VehicleBox N)) :
  flag curr prev = false <->
  forall c p, In c curr -> In p prev -> ~ hit c p.
Proof.
  split.
  - intros F c p Ic Ip T.
    assert (flag curr prev = true) by (apply flag_true_iff; eauto).
    congruence.
  - intros A. destruct (flag curr prev) eqn:F; [|reflexivity].
    apply flag_true_iff in F. destruct F as (c & p & Ic & Ip & T).
    exfalso. exact (A c p Ic Ip T).
Qed.

(** X6.  The flag depends only on which boxes are present, not on their
    order or multiplicity, and boxes added to either frame can set the
    flag but never clear it. *)
Theorem flag_monotone_in_boxes (curr prev curr' prev' : list (VehicleBox N)) :
  (incl curr curr' -> incl prev prev' ->
   flag curr prev = true -> flag curr' prev' = true) /\
  ((forall b, In b curr <-> In b curr') ->
   (forall b, In b prev <-> In b prev') ->
   flag curr prev = flag curr' prev').
Proof.
  assert (M : forall c p c' p', incl c c' -> incl p p' ->
                flag c p = true -> flag c' p' = true).
  { intros c p c' p' Ic Ip F. apply flag_true_iff in F.
    destruct F as (x & y & Ix & Iy & T). apply flag_true_iff.
    exists x, y. split; [now apply Ic|]. split; [now apply Ip|exact T]. }
  split; [apply M|].
  intros Ec Ep.
  destruct (flag curr prev) eqn:F.
  - symmetry. apply (M curr prev); [intros b; apply Ec | intros b; apply Ep | exact F].
  - destruct (flag curr' prev') eqn:F'; [|reflexivity].
    rewrite <- F.
    apply (M curr' prev'); [intros b; apply Ec | intros b; apply Ep | exact F'].
Qed.

Lemma flat_previous_never_flag (curr prev : list (VehicleBox N)) :
  Forall (fun p => gtb (area p) zero = false) prev ->
  flag curr prev = false.
Proof.
  intros A. apply flag_false_iff. intros c p _ Ip (_ & G & _).
  rewrite Forall_forall in A. rewrite (A p Ip) in G. discriminate.
Qed.

End MoreHeuristic.

Section MoreHeuristicQ.
Local Open Scope Q_scope.

Lemma trigger_pair_Q (thr factor : Q) (c p : VehicleBox Q) :
  trigger_pair thr factor c p <->
  thr <= compute_iou (coords c) (coords p) /\
  0 < area p /\
  factor <= area c / (area p + eps).
Proof.
  unfold trigger_pair, geb, gtb. cbn [leb ltb zero add div Q_PyNum].
  rewrite !Qle_bool_iff, Qltb_lt. reflexivity.
Qed.

(** X7.  Lowering the IoU threshold or the growth factor never clears a
    flag: a frame flagged under thresholds [(thr', factor')] is flagged
    under any [(thr, factor)] with [thr <= thr'] and [factor <= factor']. *)
Theorem flag_monotone_in_thresholds (thr thr' factor factor' : Q)
  (curr prev : list (VehicleBox Q)) :
  thr <= thr' -> factor <= factor' ->
  accident_in_this_frame thr' factor' curr prev = true ->
  accident_in_this_frame thr factor curr prev = true.
Proof.
  intros Lt Lf F. apply flag_true_iff in F. apply flag_true_iff.
  destruct F as (c & p & Ic & Ip & T). exists c, p.
  split; [exact Ic|]. split; [exact Ip|].
  apply trigger_pair_Q in T. apply trigger_pair_Q.
  destruct T as (A & B & C). split; [|split].
  - now apply Qle_trans with thr'.
  - exact B.
  - now apply Qle_trans with factor'.
Qed.

(** X10.  If every detection of the previous frame is degenerate (no
    positive width or no positive height), the current frame is not
    flagged, whatever it shows. *)
Theorem degenerate_previous_frame_never_flags (Frame : Type)
  (model : Detector Frame Q) (thr factor : Q)
  (curr : list (VehicleBox Q)) (previous : list (RawDetection Q)) :
  Forall (fun r => bx2 (xyxy r) <= bx1 (xyxy r) \/
                   by2 (xyxy r) <= by1 (xyxy r)) previous ->
  accident_in_this_frame thr factor curr (vehicle_boxes model previous) = false.
Proof.
  intros D. apply flat_previous_never_flag.
  rewrite vehicle_boxes_as_filter. apply Forall_map, Forall_forall.
  intros r I. apply filter_In in I. destruct I as [I _].
  rewrite Forall_forall in D. specialize (D r I).
  unfold gtb. cbn [ltb zero Q_PyNum vehicle_of area].
  destruct (Qltb 0 (box_area (xyxy r))) eqn:E; [|reflexivity].
  apply Qltb_lt in E. unfold box_area in E.
  rewrite (clamped_area_degenerate D) in E. lra.
Qed.

End MoreHeuristicQ.

(** *** More on the frame loop *)

Section MoreTraces.
Context {Frame N : Type}.

Lemma imwrites_app (t1 t2 : list (Effect Frame N)) :
  imwrites (t1 ++ t2) = imwrites t1 ++ imwrites t2.
Proof.
  induction t1 as [|e t1 IH]; [reflexivity|].
  destruct e; cbn [app imwrites]; rewrite IH; reflexivity.
Qed.

Lemma imwrites_prints (lines : list string) :
  imwrites (map (Print (Frame := Frame) (N := N)) lines) = [].
Proof. induction lines; [reflexivity | exact IHlines]. Qed.

Lemma opens_app (t1 t2 : list (Effect Frame N)) :
  opens (t1 ++ t2) = opens t1 ++ opens t2.
Proof.
  induction t1 as [|e t1 IH]; [reflexivity|].
  destruct e; cbn [app opens]; rewrite IH; reflexivity.
Qed.

Lemma releases_app (t1 t2 : list (Effect Frame N)) :
  releases (t1 ++ t2) = releases t1 ++ releases t2.
Proof.
  induction t1 as [|e t1 IH]; [reflexivity|].
  destruct e; cbn [app releases]; rewrite IH; reflexivity.
Qed.

Lemma sorted_snoc (l : list nat) (a : nat) :
  StronglySorted lt l -> Forall (fun x => x < a) l ->
  StronglySorted lt (l ++ [a]).
Proof.
  induction 1 as [|x l S IH F]; intros B; cbn [app].
  - constructor; constructor.
  - inversion B; subst. constructor; [now apply IH|].
    apply Forall_app. split; [exact F | now constructor].
Qed.

End MoreTraces.

Section MoreLoop.
Context {Frame N : Type} `{PyNum N}.
Variable model : Detector Frame N.
Variable os : Platform Frame N.
Variable base_name : string.
Variable fps conf_thres accident_iou_thres area_growth_factor : N.

#[local] Abbreviation step' :=
  (process_frame model os base_name fps conf_thres accident_iou_thres
                 area_growth_factor).
#[local] Abbreviation loop' :=
  (run_loop model os base_name fps conf_thres accident_iou_thres
            area_growth_factor).
#[local] Abbreviation analyze gen max_frames :=
  (analyze_frames model os gen base_name fps conf_thres accident_iou_thres
                  area_growth_factor max_frames).
#[local] Abbreviation boxes img :=
  (vehicle_boxes model (infer model img conf_thres)).
#[local] Abbreviation flagged img st :=
  (accident_in_this_frame accident_iou_thres area_growth_factor
     (boxes img) (prev_boxes st)).
#[local] Abbreviation event id idx := (event_of os base_name fps id idx).

Lemma imwrites_draw_boxes (img : Frame) (curr : list (VehicleBox N)) :
  imwrites (draw_boxes img curr) = [].
Proof. induction curr as [|cb rest IH]; [reflexivity | exact IH]. Qed.

Lemma step_flagged (img : Frame) (idx : nat) (st : RunState Frame N) :
  flagged img st = true ->
  accident_events (step' img idx st)
  = accident_events st ++ [event (S (accident_counter st)) idx] /\
  snapshot_paths (step' img idx st)
  = snapshot_paths st ++ [snapshot_path (event (S (accident_counter st)) idx)] /\
  accident_counter (step' img idx st) = S (accident_counter st) /\
  imwrites (trace (step' img idx st))
  = imwrites (trace st) ++ [snapshot_path (event (S (accident_counter st)) idx)].
Proof.
  unfold process_frame. intros ->. cbn [accident_events snapshot_paths
    accident_counter trace].
  split; [reflexivity|]. split; [reflexivity|]. split; [reflexivity|].
  rewrite !imwrites_app, imwrites_draw_boxes.
  destruct (idx mod 50 =? 0)%nat; cbn [imwrites app];
    rewrite ?app_nil_r; reflexivity.
Qed.

Lemma step_unflagged (img : Frame) (idx : nat) (st : RunState Frame N) :
  flagged img st = false ->
  accident_events (step' img idx st) = accident_events st /\
  snapshot_paths (step' img idx st) = snapshot_paths st /\
  accident_counter (step' img idx st) = accident_counter st /\
  imwrites (trace (step' img idx st)) = imwrites (trace st).
Proof.
  unfold process_frame. intros ->. cbn [accident_events snapshot_paths
    accident_counter trace].
  split; [reflexivity|]. split; [reflexivity|]. split; [reflexivity|].
  rewrite !imwrites_app, imwrites_draw_boxes.
  destruct (idx mod 50 =? 0)%nat; cbn [imwrites app];
    rewrite ?app_nil_r; reflexivity.
Qed.

(** **** The log as a function of the processed frames *)

Lemma loop_log (max_frames : option Z) (gen_end : list string)
  (gen : list (option Frame)) (st : RunState Frame N) :
  exists processed,
    inferred (trace (fst (loop' max_frames gen_end gen st)))
    = inferred (trace st) ++ processed /\
    accident_events (fst (loop' max_frames gen_end gen st))
    = accident_events st ++
      numbered_events os base_name fps (S (accident_counter st))
        (flagged_frames model conf_thres accident_iou_thres area_growth_factor
           (prev_boxes st) (S (frame_idx st)) processed).
Proof.
  revert st. induction gen as [|[img|] rest IH]; intros st; cbn [run_loop].
  - exists []. cbn [fst trace accident_events].
    rewrite inferred_app, inferred_prints. cbn. rewrite ?app_nil_r. auto.
  - destruct (over_budget max_frames (S (frame_idx st))).
    + exists []. cbn [fst trace accident_events].
      rewrite inferred_app. cbn. rewrite ?app_nil_r. auto.
    + destruct (IH (step' img (S (frame_idx st)) st)) as (processed & I & E).
      exists (img :: processed). rewrite I, E, step_inferred, <- app_assoc.
      split; [reflexivity|].
      rewrite step_prev_boxes, step_frame_idx. cbn [flagged_frames].
      destruct (flagged img st) eqn:F.
      * destruct (step_flagged img (S (frame_idx st)) st F) as (-> & _ & -> & _).
        rewrite <- app_assoc. reflexivity.
      * destruct (step_unflagged img (S (frame_idx st)) st F) as (-> & _ & -> & _).
        reflexivity.
  - exists []. cbn. rewrite ?app_nil_r. auto.
Qed.

(** X11.  The event log of a run is a function of the frames the detector
    ran on: the events are those of the frames flagged against their
    predecessor, numbered 1, 2, ..., each with the time stamp and snapshot
    path computed from its number and frame index. *)
Theorem log_determined_by_processed_frames (max_frames : option Z)
  (gen : Generator Frame N) :
  accident_events (final (analyze gen max_frames))
  = numbered_events os base_name fps 1
      (flagged_frames model conf_thres accident_iou_thres area_growth_factor
         [] 1 (inferred (trace (final (analyze gen max_frames))))).
Proof.
  unfold analyze_frames, finish. cbn [final accident_events trace].
  destruct (loop_log max_frames (at_end gen) (items gen) initial_state)
    as (processed & I & E).
  rewrite inferred_app, I, E. cbn [inferred initial_state trace
    accident_events accident_counter prev_boxes frame_idx app].
  now rewrite app_nil_r.
Qed.

(** **** Snapshots *)

Lemma loop_snapshots (max_frames : option Z) (gen_end : list string)
  (gen : list (option Frame)) (st : RunState Frame N) :
  snapshot_paths st = map (@snapshot_path N) (accident_events st) ->
  imwrites (trace st) = snapshot_paths st ->
  snapshot_paths (fst (loop' max_frames gen_end gen st))
  = map (@snapshot_path N)
        (accident_events (fst (loop' max_frames gen_end gen st))) /\
  imwrites (trace (fst (loop' max_frames gen_end gen st)))
  = snapshot_paths (fst (loop' max_frames gen_end gen st)).
Proof.
  revert st. induction gen as [|[img|] rest IH]; intros st SP W; cbn [run_loop].
  - cbn [fst snapshot_paths accident_events trace].
    rewrite imwrites_app, imwrites_prints, app_nil_r. auto.
  - destruct (over_budget max_frames (S (frame_idx st))).
    + cbn [fst snapshot_paths accident_events trace].
      rewrite imwrites_app. cbn. rewrite app_nil_r. auto.
    + apply IH.
      * destruct (flagged img st) eqn:F.
        -- destruct (step_flagged img (S (frame_idx st)) st F) as (-> & -> & _).
           rewrite map_app, SP. reflexivity.
        -- destruct (step_unflagged img (S (frame_idx st)) st F) as (-> & -> & _).
           exact SP.
      * destruct (flagged img st) eqn:F.
        -- destruct (step_flagged img (S (frame_idx st)) st F) as (_ & -> & _ & ->).
           now rewrite W.
        -- destruct (step_unflagged img (S (frame_idx st)) st F) as (_ & -> & _ & ->).
           exact W.
  - auto.
Qed.

Lemma analyze_snapshots (max_frames : option Z) (gen : Generator Frame N) :
  fst (returned (analyze gen max_frames))
  = imwrites (trace (final (analyze gen max_frames))) /\
  fst (returned (analyze gen max_frames))
  = map (@snapshot_path N) (accident_events (final (analyze gen max_frames))) /\
  List.length (fst (returned (analyze gen max_frames)))
  = accident_counter (final (analyze gen max_frames)) /\
  List.length (accident_events (final (analyze gen max_frames)))
  = accident_counter (final (analyze gen max_frames)).
Proof.
  unfold analyze_frames, finish.
  cbn [returned final fst trace accident_events accident_counter].
  destruct (loop_snapshots max_frames (at_end gen) (items gen) initial_state
              eq_refl eq_refl) as [SP W].
  assert (C : log_consistent
                (fst (loop' max_frames (at_end gen) (items gen) initial_state))).
  { apply loop_log_consistent. repeat split. }
  destruct C as (LE & _ & L).
  rewrite imwrites_app, W. cbn [imwrites app]. rewrite app_nil_r.
  split; [reflexivity|]. split; [exact SP|]. split; [exact L | exact LE].
Qed.

(** X12.  The list of snapshot paths a run returns is, in order, the list
    of image files it wrote and the list of paths recorded in its events;
    there are as many as the event counter says. *)
Theorem snapshots_written_logged_returned (max_frames : option Z)
  (gen : Generator Frame N) :
  let run := analyze gen max_frames in
  fst (returned run) = imwrites (trace (final run)) /\
  fst (returned run) = map (@snapshot_path N) (accident_events (final run)) /\
  List.length (fst (returned run)) = accident_counter (final run).
Proof.
  cbn zeta.
  destruct (analyze_snapshots max_frames gen) as (A & B & C & _).
  split; [exact A|]. split; [exact B | exact C].
Qed.

(** **** Event frames *)

#[local] Abbreviation looping st :=
  (frame_idx st = List.length (inferred (trace st)) /\
   StronglySorted lt (map (@frame N) (accident_events st)) /\
   Forall (fun ev => 2 <= frame ev <= frame_idx st) (accident_events st) /\
   (frame_idx st = 0 -> prev_boxes st = []) /\
   (accident_counter st = 0 \/ accident_counter st < frame_idx st)).

#[local] Abbreviation settled st :=
  (StronglySorted lt (map (@frame N) (accident_events st)) /\
   Forall (fun ev => 2 <= frame ev <= List.length (inferred (trace st)))
          (accident_events st) /\
   accident_counter st <= List.length (inferred (trace st)) - 1).

Lemma looping_settled (st st' : RunState Frame N) :
  looping st ->
  accident_events st' = accident_events st ->
  accident_counter st' = accident_counter st ->
  inferred (trace st') = inferred (trace st) ->
  settled st'.
Proof.
  intros (L & SS & B & _ & C) -> -> ->. rewrite <- L.
  split; [exact SS|]. split; [exact B | lia].
Qed.

Lemma step_looping (img : Frame) (st : RunState Frame N) :
  looping st -> looping (step' img (S (frame_idx st)) st).
Proof.
  intros (L & SS & B & Z0 & C).
  rewrite step_frame_idx, step_inferred, length_app, step_prev_boxes.
  cbn [List.length]. split; [lia|].
  assert (W : Forall (fun ev => 2 <= frame ev <= S (frame_idx st))
                     (accident_events st)).
  { eapply Forall_impl; [|exact B]. cbn. intros ev; lia. }
  destruct (flagged img st) eqn:F.
  - assert (P : frame_idx st <> 0).
    { intro E. rewrite (Z0 E) in F. now rewrite no_previous_no_event in F. }
    destruct (step_flagged img (S (frame_idx st)) st F) as (-> & _ & -> & _).
    rewrite map_app. cbn [map event_of frame].
    split; [|split; [|split; [discriminate | lia]]].
    + apply sorted_snoc; [exact SS|]. apply Forall_map.
      eapply Forall_impl; [|exact B]. cbn. intros ev; lia.
    + apply Forall_app. split; [exact W|].
      constructor; [cbn; lia | constructor].
  - destruct (step_unflagged img (S (frame_idx st)) st F) as (-> & _ & -> & _).
    split; [exact SS|]. split; [exact W|]. split; [discriminate | lia].
Qed.

Lemma loop_settled (max_frames : option Z) (gen_end : list string)
  (gen : list (option Frame)) (st : RunState Frame N) :
  looping st -> settled (fst (loop' max_frames gen_end gen st)).
Proof.
  revert st. induction gen as [|[img|] rest IH]; intros st L; cbn [run_loop].
  - eapply looping_settled; [exact L | reflexivity | reflexivity |].
    cbn [fst trace]. now rewrite inferred_app, inferred_prints, app_nil_r.
  - destruct (over_budget max_frames (S (frame_idx st))).
    + eapply looping_settled; [exact L | reflexivity | reflexivity |].
      cbn [fst trace]. rewrite inferred_app. cbn. now rewrite app_nil_r.
    + apply IH. now apply step_looping.
  - eapply looping_settled; [exact L | reflexivity | reflexivity | reflexivity].
Qed.

(** X13.  The frame indices of the logged events are strictly increasing;
    each lies between 2 and the number of frames the detector ran on; so a
    run logs fewer events than it processed frames. *)
Theorem event_frames_increase (max_frames : option Z)
  (gen : Generator Frame N) :
  let st := final (analyze gen max_frames) in
  StronglySorted lt (map (@frame N) (accident_events st)) /\
  Forall (fun ev => 2 <= frame ev <= List.length (inferred (trace st)))
         (accident_events st) /\
  accident_counter st <= List.length (inferred (trace st)) - 1.
Proof.
  cbn zeta. unfold analyze_frames, finish.
  cbn [final accident_events accident_counter trace].
  rewrite inferred_app. cbn [inferred]. rewrite app_nil_r.
  apply loop_settled. cbn.
  split; [reflexivity|]. split; [constructor|]. split; [constructor|].
  split; [reflexivity | now left].
Qed.

(** **** Runs without a budget *)

Lemma loop_unbounded (gen_end : list string) (gen : list (option Frame))
  (st : RunState Frame N) :
  inferred (trace (fst (loop' None gen_end gen st)))
  = inferred (trace st) ++ leading_frames gen /\
  frame_idx (fst (loop' None gen_end gen st))
  = frame_idx st + List.length (leading_frames gen) /\
  snd (loop' None gen_end gen st) = after_none gen.
Proof.
  revert st. induction gen as [|[img|] rest IH]; intros st;
    cbn [run_loop over_budget leading_frames after_none].
  - cbn [fst snd trace frame_idx List.length].
    rewrite inferred_app, inferred_prints, !app_nil_r.
    split; [reflexivity|]. split; [lia | reflexivity].
  - destruct (IH (step' img (S (frame_idx st)) st)) as (I & F & U).
    rewrite I, F, U, step_inferred, step_frame_idx, <- app_assoc.
    cbn [List.length app]. split; [reflexivity|]. split; [lia | reflexivity].
  - cbn [fst snd List.length]. rewrite app_nil_r.
    split; [reflexivity|]. split; [lia | reflexivity].
Qed.

(** X14.  Without [max_frames] the detector runs on every frame the
    generator yields before its first [None], in order and once each; the
    final [frame_idx] is their number; the items after that [None] are
    never pulled. *)
Theorem unbounded_run_processes_all (gen : Generator Frame N) :
  let run := analyze gen None in
  inferred (trace (final run)) = leading_frames (items gen) /\
  frame_idx (final run) = List.length (leading_frames (items gen)) /\
  unpulled run = after_none (items gen).
Proof.
  cbn zeta. unfold analyze_frames, finish. cbn [final unpulled trace frame_idx].
  destruct (loop_unbounded (at_end gen) (items gen) initial_state) as (I & F & U).
  rewrite inferred_app, I, F, U. cbn. rewrite app_nil_r. auto.
Qed.

(** **** Runs with nothing to process *)

Lemma loop_nothing (max_frames : option Z) (gen_end : list string)
  (gen : list (option Frame)) (st : RunState Frame N) :
  (exists m, max_frames = Some m /\ (m <= Z.of_nat (frame_idx st))%Z) \/
  leading_frames gen = [] ->
  accident_events (fst (loop' max_frames gen_end gen st)) = accident_events st /\
  snapshot_paths (fst (loop' max_frames gen_end gen st)) = snapshot_paths st /\
  inferred (trace (fst (loop' max_frames gen_end gen st)))
  = inferred (trace st).
Proof.
  intros C. destruct gen as [|[img|] rest]; cbn [run_loop].
  - cbn [fst accident_events snapshot_paths trace].
    rewrite inferred_app, inferred_prints, app_nil_r. auto.
  - assert (O : over_budget max_frames (S (frame_idx st)) = true).
    { destruct C as [(m & -> & M)|C]; [|discriminate].
      cbn [over_budget]. rewrite Z.gtb_ltb, Z.ltb_lt. lia. }
    rewrite O. cbn [fst accident_events snapshot_paths trace].
    rewrite inferred_app. cbn. rewrite app_nil_r. auto.
  - auto.
Qed.

(** X15.  A run whose budget [max_frames] is zero or negative, or whose
    generator yields no frame before ending or yielding [None], runs the
    detector on nothing, logs no event, returns an empty snapshot list with
    the log path, and writes a CSV log that holds the header row only. *)
Theorem nothing_to_process (max_frames : option Z) (gen : Generator Frame N) :
  (exists m, max_frames = Some m /\ (m <= 0)%Z) \/
  leading_frames (items gen) = [] ->
  let run := analyze gen max_frames in
  inferred (trace (final run)) = [] /\
  accident_events (final run) = [] /\
  returned run = ([], log_csv_path os base_name) /\
  csv_writes (trace (final run)) = [(log_csv_path os base_name, [header_row])].
Proof.
  intros C run.
  assert (E : accident_events (final run) = [] /\
              snapshot_paths (final run) = [] /\
              inferred (trace (final run)) = []).
  { subst run. unfold analyze_frames, finish.
    cbn [final accident_events snapshot_paths trace].
    destruct (loop_nothing (at_end gen) (items gen) initial_state
                (max_frames := max_frames)) as (A & B & I).
    { destruct C as [(m & M & L)|C]; [left; exists m; split; [exact M|exact L]
                                     | right; exact C]. }
    rewrite inferred_app, A, B, I. cbn. auto. }
  destruct E as (A & B & I).
  split; [exact I|]. split; [exact A|]. split.
  - subst run. unfold analyze_frames, finish in *. cbn [returned].
    cbn [final snapshot_paths] in B. now rewrite B.
  - subst run. rewrite analyze_csv_writes, A. reflexivity.
Qed.

(** **** Prefixes *)

Lemma loop_appends (max_frames : option Z) (gen_end : list string)
  (gen : list (option Frame)) (st : RunState Frame N) :
  exists more_events more_paths,
    accident_events (fst (loop' max_frames gen_end gen st))
    = accident_events st ++ more_events /\
    snapshot_paths (fst (loop' max_frames gen_end gen st))
    = snapshot_paths st ++ more_paths.
Proof.
  revert st. induction gen as [|[img|] rest IH]; intros st; cbn [run_loop].
  - exists [], []. cbn. now rewrite !app_nil_r.
  - destruct (over_budget max_frames (S (frame_idx st))).
    + exists [], []. cbn. now rewrite !app_nil_r.
    + destruct (IH (step' img (S (frame_idx st)) st)) as (me & mp & -> & ->).
      destruct (flagged img st) eqn:F.
      * destruct (step_flagged img (S (frame_idx st)) st F) as (-> & -> & _).
        rewrite <- !app_assoc. eauto.
      * destruct (step_unflagged img (S (frame_idx st)) st F) as (-> & -> & _).
        eauto.
  - exists [], []. cbn. now rewrite !app_nil_r.
Qed.

Lemma loop_nil_log (max_frames : option Z) (gen_end : list string)
  (st : RunState Frame N) :
  accident_events (fst (loop' max_frames gen_end [] st)) = accident_events st /\
  snapshot_paths (fst (loop' max_frames gen_end [] st)) = snapshot_paths st.
Proof. split; reflexivity. Qed.

Lemma loop_prefix (max_frames : option Z) (gen_end : list string)
  (gen : list (option Frame)) (n : nat) (st : RunState Frame N) :
  exists later_events later_paths,
    accident_events (fst (loop' max_frames gen_end gen st))
    = accident_events (fst (loop' max_frames gen_end (firstn n gen) st))
      ++ later_events /\
    snapshot_paths (fst (loop' max_frames gen_end gen st))
    = snapshot_paths (fst (loop' max_frames gen_end (firstn n gen) st))
      ++ later_paths.
Proof.
  revert n st. induction gen as [|[img|] rest IH]; intros n st.
  - rewrite firstn_nil. exists [], []. now rewrite !app_nil_r.
  - destruct n as [|n].
    + cbn [firstn].
      destruct (loop_nil_log max_frames gen_end st) as [-> ->].
      apply loop_appends.
    + cbn [firstn run_loop].
      destruct (over_budget max_frames (S (frame_idx st))).
      * exists [], []. now rewrite !app_nil_r.
      * apply IH.
  - destruct n as [|n].
    + cbn [firstn].
      destruct (loop_nil_log max_frames gen_end st) as [-> ->].
      apply loop_appends.
    + cbn [firstn run_loop]. exists [], []. now rewrite !app_nil_r.
Qed.

(** X16.  The log only grows: the events and the snapshot paths of a run on
    the first [n] items of a generator are an initial segment of those of
    the run on all its items. *)
Theorem log_is_append_only (max_frames : option Z) (gen : Generator Frame N)
  (n : nat) :
  let whole := analyze gen max_frames in
  let part := analyze (mkGen (firstn n (items gen)) (at_end gen)) max_frames in
  exists later_events later_paths,
    accident_events (final whole)
    = accident_events (final part) ++ later_events /\
    fst (returned whole) = fst (returned part) ++ later_paths.
Proof.
  cbn zeta. unfold analyze_frames, finish.
  cbn [final returned fst accident_events items at_end].
  apply loop_prefix.
Qed.

End MoreLoop.

(** *** More on the entry points and the router *)

Section MoreEntryPoints.
Context {Frame N : Type} `{PyNum N}.
Variable model : Detector Frame N.
Variable os : Platform Frame N.

#[local] Abbreviation upload := (process_uploaded_video model os).
#[local] Abbreviation webcam := (process_webcam model os).
#[local] Abbreviation phone := (process_phone_ip_cam model os).
#[local] Abbreviation router := (gradio_main model os).

Lemma leading_frames_map_Some (frames : list Frame) :
  leading_frames (map Some frames) = frames.
Proof. induction frames as [|f rest IH]; [reflexivity | cbn; now rewrite IH]. Qed.

Lemma opens_prints (lines : list string) :
  opens (map (Print (Frame := Frame) (N := N)) lines) = [].
Proof. induction lines; [reflexivity | exact IHlines]. Qed.

Lemma releases_prints (lines : list string) :
  releases (map (Print (Frame := Frame) (N := N)) lines) = [].
Proof. induction lines; [reflexivity | exact IHlines]. Qed.

Lemma opens_draw_boxes (img : Frame) (curr : list (VehicleBox N)) :
  opens (draw_boxes img curr) = [].
Proof. induction curr as [|cb rest IH]; [reflexivity | exact IH]. Qed.

Lemma releases_draw_boxes (img : Frame) (curr : list (VehicleBox N)) :
  releases (draw_boxes img curr) = [].
Proof. induction curr as [|cb rest IH]; [reflexivity | exact IH]. Qed.

Section OneRun.
Variable base_name : string.
Variable fps conf_thres accident_iou_thres area_growth_factor : N.

#[local] Abbreviation step2 :=
  (process_frame model os base_name fps conf_thres accident_iou_thres
                 area_growth_factor).
#[local] Abbreviation loop2 :=
  (run_loop model os base_name fps conf_thres accident_iou_thres
            area_growth_factor).
#[local] Abbreviation analyze2 gen max_frames :=
  (analyze_frames model os gen base_name fps conf_thres accident_iou_thres
                  area_growth_factor max_frames).

Lemma step_captures (img : Frame) (idx : nat) (st : RunState Frame N) :
  opens (trace (step2 img idx st)) = opens (trace st) /\
  releases (trace (step2 img idx st)) = releases (trace st).
Proof.
  unfold process_frame.
  destruct (accident_in_this_frame _ _ _ _); cbn [trace];
    rewrite ?opens_app, ?releases_app, opens_draw_boxes, releases_draw_boxes;
    destruct (idx mod 50 =? 0)%nat; cbn [opens releases app];
    rewrite ?app_nil_r; split; reflexivity.
Qed.

Lemma loop_captures (max_frames : option Z) (gen_end : list string)
  (gen : list (option Frame)) (st : RunState Frame N) :
  opens (trace (fst (loop2 max_frames gen_end gen st))) = opens (trace st) /\
  releases (trace (fst (loop2 max_frames gen_end gen st)))
  = releases (trace st).
Proof.
  revert st. induction gen as [|[img|] rest IH]; intros st; cbn [run_loop].
  - cbn [fst trace].
    rewrite opens_app, releases_app, opens_prints, releases_prints, !app_nil_r.
    split; reflexivity.
  - destruct (over_budget max_frames (S (frame_idx st))).
    + cbn [fst trace]. rewrite opens_app, releases_app. cbn.
      rewrite !app_nil_r. split; reflexivity.
    + destruct (IH (step2 img (S (frame_idx st)) st)) as [-> ->].
      apply step_captures.
  - split; reflexivity.
Qed.

Lemma analyze_captures (max_frames : option Z) (gen : Generator Frame N) :
  opens (trace (final (analyze2 gen max_frames))) = [] /\
  releases (trace (final (analyze2 gen max_frames))) = [].
Proof.
  unfold analyze_frames, finish. cbn [final trace].
  destruct (loop_captures max_frames (at_end gen) (items gen) initial_state)
    as [O R].
  rewrite opens_app, releases_app, O, R. split; reflexivity.
Qed.

Lemma live_run_inferred (cap : Source) (m : Z) (no_more : list string) :
  inferred (trace (final (analyze2 (live_frame_gen os cap m no_more) (Some m))))
  = firstn (Z.to_nat m) (cap_frames os cap).
Proof.
  unfold analyze_frames, finish, live_frame_gen. cbn [final trace items at_end].
  rewrite inferred_app. cbn [inferred]. rewrite app_nil_r.
  destruct (Z.le_gt_cases 0 m) as [M|M].
  - destruct (loop_budget model os base_name fps conf_thres accident_iou_thres
                area_growth_factor
                (if (List.length (cap_frames os cap) <? Z.to_nat m)%nat
                 then no_more else [])
                (map Some (firstn (Z.to_nat m) (cap_frames os cap)))
                M (Z.to_nat m) initial_state eq_refl) as (I & _).
    rewrite I, leading_frames_map_Some, firstn_firstn, Nat.min_id.
    reflexivity.
  - replace (Z.to_nat m) with 0 by lia. cbn.
    rewrite ?inferred_app, ?inferred_prints. reflexivity.
Qed.

Lemma run_entry_consistent (max_frames : option Z) (gen : Generator Frame N)
  (before after : list (Effect Frame N)) :
  csv_writes before = [] -> imwrites before = [] ->
  csv_writes after = [] -> imwrites after = [] ->
  entry_consistent
    (mkEntry (Returned (fst (returned (analyze2 gen max_frames)),
                        Some (snd (returned (analyze2 gen max_frames)))))
             (before ++ trace (final (analyze2 gen max_frames)) ++ after)).
Proof.
  intros B1 B2 A1 A2. unfold entry_consistent. cbn [completion effects].
  rewrite !csv_writes_app, !imwrites_app, B1, B2, A1, A2, !app_nil_r.
  cbn [app].
  destruct (analyze_snapshots model os base_name fps conf_thres
              accident_iou_thres area_growth_factor max_frames gen)
    as (W & _ & L & LE).
  split; [|now rewrite W].
  exists (map (@event_row N)
              (accident_events (final (analyze2 gen max_frames)))).
  split.
  - apply analyze_csv_writes.
  - rewrite length_map, LE, L. reflexivity.
Qed.

End OneRun.

Lemma upload_consistent (video_file : option VideoFile)
  (conf_thres accident_iou area_growth : N) :
  entry_consistent (upload video_file conf_thres accident_iou area_growth).
Proof.
  unfold process_uploaded_video.
  destruct video_file as [vf|]; [|cbn; auto].
  destruct (path_exists os _); cbn [negb]; [|cbn; auto].
  destruct (is_opened os _); cbn [negb]; [|cbn; auto].
  apply (run_entry_consistent _ _ _ _ _ _ _ [_; _] [_]); reflexivity.
Qed.

Lemma webcam_consistent (duration_sec conf_thres accident_iou area_growth : N) :
  entry_consistent (webcam duration_sec conf_thres accident_iou area_growth).
Proof.
  unfold process_webcam.
  destruct (is_opened os _); cbn [negb]; [|cbn; auto].
  apply (run_entry_consistent _ _ _ _ _ _ _ [_; _] [_]); reflexivity.
Qed.

Lemma phone_consistent (ip_url : option string)
  (duration_sec conf_thres accident_iou area_growth : N) :
  entry_consistent (phone ip_url duration_sec conf_thres accident_iou area_growth).
Proof.
  unfold process_phone_ip_cam.
  destruct ip_url as [[|a url]|]; [cbn; auto | | cbn; auto].
  destruct (is_opened os _); cbn [negb]; [|cbn; auto].
  apply (run_entry_consistent _ _ _ _ _ _ _ [_; _; _] [_]); reflexivity.
Qed.

(** X17.  Whatever an entry point or the router is called with, its result
    agrees with its effects: a returned log path is the path of the one CSV
    file written, which has one data row per returned snapshot path, and
    the returned snapshot paths are the images written; a result without a
    log path, and a raised error, come with no detector call and no file
    written. *)
Theorem entry_points_consistent :
  (forall video_file conf_thres accident_iou area_growth,
     entry_consistent (upload video_file conf_thres accident_iou area_growth)) /\
  (forall duration_sec conf_thres accident_iou area_growth,
     entry_consistent (webcam duration_sec conf_thres accident_iou area_growth)) /\
  (forall ip_url duration_sec conf_thres accident_iou area_growth,
     entry_consistent
       (phone ip_url duration_sec conf_thres accident_iou area_growth)) /\
  (forall source_type video_file webcam_duration phone_ip_url phone_duration
          conf_thres accident_iou area_growth,
     entry_consistent
       (router source_type video_file webcam_duration phone_ip_url
               phone_duration conf_thres accident_iou area_growth)).
Proof.
  split; [exact upload_consistent|]. split; [exact webcam_consistent|].
  split; [exact phone_consistent|].
  intros. unfold gradio_main.
  destruct (String.eqb source_type "Upload video"); [apply upload_consistent|].
  destruct (String.eqb source_type "Laptop webcam");
    [apply webcam_consistent | apply phone_consistent].
Qed.

Lemma analyze_unbounded_inferred (base_name : string)
  (fps conf_thres accident_iou area_growth : N) (frames : list Frame) :
  inferred (trace (final (analyze_frames model os (mkGen (map Some frames) [])
                            base_name fps conf_thres accident_iou area_growth
                            None)))
  = frames.
Proof.
  unfold analyze_frames, finish. cbn [final trace items at_end].
  destruct (loop_unbounded model os base_name fps conf_thres accident_iou
              area_growth [] (map Some frames) initial_state) as (I & _).
  rewrite inferred_app, I, leading_frames_map_Some. cbn. now rewrite app_nil_r.
Qed.

(** X18.  When the capture opens, the upload mode runs the detector on
    every frame of the file, in order; the two live modes run it on the
    first [int(fps * duration_sec)] frames the camera delivers (on all of
    them if it delivers fewer, on none if that number is not positive),
    [fps] being the reported rate or 15 when that is not in (0, 120]. *)
Theorem frames_each_mode_processes :
  (forall video_file conf_thres accident_iou area_growth,
     let video_path :=
       match video_file with VPath s => s | VObject name => name end in
     path_exists os video_path = true ->
     is_opened os (ByName video_path) = true ->
     inferred (effects (upload (Some video_file) conf_thres accident_iou
                               area_growth))
     = cap_frames os (ByName video_path)) /\
  (forall duration_sec conf_thres accident_iou area_growth,
     is_opened os (ByIndex 0) = true ->
     let fps := live_fps (cap_fps os (ByIndex 0)) in
     inferred (effects (webcam duration_sec conf_thres accident_iou area_growth))
     = firstn (Z.to_nat (to_int (mul fps duration_sec)))
              (cap_frames os (ByIndex 0))) /\
  (forall url duration_sec conf_thres accident_iou area_growth,
     url <> EmptyString ->
     is_opened os (ByName url) = true ->
     let fps := live_fps (cap_fps os (ByName url)) in
     inferred (effects (phone (Some url) duration_sec conf_thres accident_iou
                              area_growth))
     = firstn (Z.to_nat (to_int (mul fps duration_sec)))
              (cap_frames os (ByName url))).
Proof.
  split; [|split].
  - intros video_file conf_thres accident_iou area_growth video_path P O.
    unfold process_uploaded_video. fold video_path. rewrite P, O.
    cbn [negb effects]. rewrite !inferred_app. cbn [inferred app].
    rewrite app_nil_r. apply analyze_unbounded_inferred.
  - intros duration_sec conf_thres accident_iou area_growth O fps.
    unfold process_webcam. rewrite O.
    cbn [negb effects]. rewrite !inferred_app. cbn [inferred app].
    rewrite app_nil_r. apply live_run_inferred.
  - intros url duration_sec conf_thres accident_iou area_growth U O fps.
    unfold process_phone_ip_cam. destruct url as [|a url]; [congruence|].
    rewrite O.
    cbn [negb effects]. rewrite !inferred_app. cbn [inferred app].
    rewrite app_nil_r. apply live_run_inferred.
Qed.

Lemma run_capture_released (max_frames : option Z) (gen : Generator Frame N)
  (base_name : string) (fps conf_thres accident_iou area_growth : N)
  (before : list (Effect Frame N)) (cap : Source)
  (snaps : list string) (csv : string) :
  opens before = [cap] -> releases before = [] ->
  capture_released
    (mkEntry (Returned (snaps, Some csv))
       (before
        ++ trace (final (analyze_frames model os gen base_name fps conf_thres
                           accident_iou area_growth max_frames))
        ++ [CapRelease cap])).
Proof.
  intros B1 B2. unfold capture_released. cbn [completion effects].
  destruct (analyze_captures base_name fps conf_thres accident_iou area_growth
              max_frames gen) as [O R].
  rewrite !opens_app, !releases_app, O, R, B1, B2.
  cbn. split; [lia | reflexivity].
Qed.

Lemma upload_capture_released (video_file : option VideoFile)
  (conf_thres accident_iou area_growth : N) :
  capture_released (upload video_file conf_thres accident_iou area_growth).
Proof.
  unfold process_uploaded_video.
  destruct video_file as [vf|]; [|split; cbn; [lia | reflexivity]].
  destruct (path_exists os _); cbn [negb]; [|split; cbn; [lia | reflexivity]].
  destruct (is_opened os _); cbn [negb]; [|split; cbn; [lia | reflexivity]].
  apply (run_capture_released _ _ _ _ _ _ _ [_; _]); reflexivity.
Qed.

Lemma webcam_capture_released
  (duration_sec conf_thres accident_iou area_growth : N) :
  capture_released (webcam duration_sec conf_thres accident_iou area_growth).
Proof.
  unfold process_webcam.
  destruct (is_opened os _); cbn [negb]; [|split; cbn; [lia | reflexivity]].
  apply (run_capture_released _ _ _ _ _ _ _ [_; _]); reflexivity.
Qed.

Lemma phone_capture_released (ip_url : option string)
  (duration_sec conf_thres accident_iou area_growth : N) :
  capture_released
    (phone ip_url duration_sec conf_thres accident_iou area_growth).
Proof.
  unfold process_phone_ip_cam.
  destruct ip_url as [[|a url]|]; try (split; cbn; [lia | reflexivity]).
  destruct (is_opened os _); cbn [negb]; [|split; cbn; [lia | reflexivity]].
  apply (run_capture_released _ _ _ _ _ _ _ [_; _; _]); reflexivity.
Qed.

(** X19.  Every entry point, and the router, opens at most one capture and
    releases it, once, exactly when it returns a log path; a capture that
    failed to open is not released. *)
Theorem captures_are_released :
  (forall video_file conf_thres accident_iou area_growth,
     capture_released (upload video_file conf_thres accident_iou area_growth)) /\
  (forall duration_sec conf_thres accident_iou area_growth,
     capture_released (webcam duration_sec conf_thres accident_iou area_growth)) /\
  (forall ip_url duration_sec conf_thres accident_iou area_growth,
     capture_released
       (phone ip_url duration_sec conf_thres accident_iou area_growth)) /\
  (forall source_type video_file webcam_duration phone_ip_url phone_duration
          conf_thres accident_iou area_growth,
     capture_released
       (router source_type video_file webcam_duration phone_ip_url
               phone_duration conf_thres accident_iou area_growth)).
Proof.
  split; [exact upload_capture_released|].
  split; [exact webcam_capture_released|].
  split; [exact phone_capture_released|].
  intros. unfold gradio_main.
  destruct (String.eqb source_type "Upload video");
    [apply upload_capture_released|].
  destruct (String.eqb source_type "Laptop webcam");
    [apply webcam_capture_released | apply phone_capture_released].
Qed.

End MoreEntryPoints.

(** *** The budget in the live modes *)

Section LiveBudget.
Context {Frame N : Type} `{PyNum N}.
Variable model : Detector Frame N.
Variable os : Platform Frame N.
Variable base_name : string.
Variable fps conf_thres accident_iou_thres area_growth_factor : N.

Lemma loop_within_budget (m : Z) (gen_end : list string) (frames : list Frame) :
  forall st : RunState Frame N,
    frame_idx st + List.length frames <= Z.to_nat m ->
    snd (run_loop model os base_name fps conf_thres accident_iou_thres
           area_growth_factor (Some m) gen_end (map Some frames) st) = [] /\
    frame_idx (fst (run_loop model os base_name fps conf_thres
                      accident_iou_thres area_growth_factor (Some m) gen_end
                      (map Some frames) st))
    = frame_idx st + List.length frames.
Proof.
  induction frames as [|img rest IH]; intros st B; cbn [map run_loop].
  - cbn. split; [reflexivity | lia].
  - cbn [List.length] in B.
    assert (O : over_budget (Some m) (S (frame_idx st)) = false).
    { cbn [over_budget]. rewrite Z.gtb_ltb, Z.ltb_ge. lia. }
    rewrite O.
    destruct (IH (process_frame model os base_name fps conf_thres
                    accident_iou_thres area_growth_factor img
                    (S (frame_idx st)) st)) as [U F].
    { rewrite step_frame_idx. lia. }
    rewrite U, F, step_frame_idx. cbn [List.length]. split; [reflexivity | lia].
Qed.

(** X23.  In the live modes the budget test of the loop never fires: the
    generator stops by itself after [max_frames] frames, so every frame
    pulled is processed, none is pulled and dropped, and the final
    [frame_idx] is the number of frames processed. *)
Theorem live_run_drops_no_frame (cap : Source) (m : Z) (no_more : list string) :
  let run :=
    analyze_frames model os (live_frame_gen os cap m no_more) base_name fps
                   conf_thres accident_iou_thres area_growth_factor (Some m) in
  unpulled run = [] /\
  inferred (trace (final run))
  = leading_frames (items (live_frame_gen os cap m no_more)) /\
  frame_idx (final run) = List.length (inferred (trace (final run))).
Proof.
  cbn zeta.
  assert (I := live_run_inferred model os base_name fps conf_thres
                 accident_iou_thres area_growth_factor cap m no_more).
  rewrite I.
  unfold analyze_frames, finish, live_frame_gen in *.
  cbn [unpulled final frame_idx items at_end] in *.
  destruct (loop_within_budget m
              (if (List.length (cap_frames os cap) <? Z.to_nat m)%nat
               then no_more else [])
              (firstn (Z.to_nat m) (cap_frames os cap)) initial_state)
    as [U F].
  { cbn [initial_state frame_idx]. rewrite length_firstn. lia. }
  rewrite U, F, leading_frames_map_Some. cbn [initial_state frame_idx].
  split; [reflexivity|]. split; reflexivity.
Qed.

End LiveBudget.

(** *** The further properties at the scene *)

Lemma flag_monotone_in_boxes_witness :
  accident_in_this_frame (1 # 2)%Q (3 # 2)%Q
    (Demo.grown ++ Demo.before) (Demo.before ++ Demo.grown) = true.
Proof.
  apply (proj1 (flag_monotone_in_boxes (1 # 2)%Q (3 # 2)%Q Demo.grown
                  Demo.before (Demo.grown ++ Demo.before)
                  (Demo.before ++ Demo.grown))).
  - apply incl_appl, incl_refl.
  - apply incl_appl, incl_refl.
  - vm_compute. reflexivity.
Defined.

Lemma flag_monotone_in_thresholds_witness :
  accident_in_this_frame (1 # 4)%Q 1%Q Demo.grown Demo.before = true.
Proof.
  apply (flag_monotone_in_thresholds (thr := (1 # 4)%Q) (thr' := (1 # 2)%Q)
           (factor := 1%Q) (factor' := (3 # 2)%Q) Demo.grown Demo.before).
  - cbn. intro L. discriminate L.
  - cbn. intro L. discriminate L.
  - vm_compute. reflexivity.
Defined.

Lemma degenerate_previous_frame_never_flags_witness :
  accident_in_this_frame (1 # 2)%Q (3 # 2)%Q Demo.grown
    (vehicle_boxes Demo.model [mkRaw 2 (mkBox 5 5 5 9)%Q]) = false.
Proof.
  apply degenerate_previous_frame_never_flags.
  constructor; [|constructor].
  left. cbn. intro L. discriminate L.
Defined.

Lemma nothing_to_process_witness :
  inferred (trace (final (Demo.run [Some 1; Some 2] (Some 0%Z)))) = [] /\
  returned (Demo.run [Some 1; Some 2] (Some 0%Z))
  = ([], "outputs/clip_accident_log.csv"%string).
Proof.
  destruct (nothing_to_process Demo.model Demo.studio "clip" 25%Q (1 # 4)%Q
              (1 # 2)%Q (3 # 2)%Q (max_frames := Some 0%Z)
              (mkGen [Some 1; Some 2] [])) as (I & _ & R & _).
  - left. exists 0%Z. split; [reflexivity | cbn; intro L; discriminate L].
  - split; [exact I | exact R].
Defined.

Lemma frames_each_mode_processes_witness :
  inferred (effects (process_webcam Demo.model Demo.studio (1 # 10)%Q (1 # 4)%Q
                                    (1 # 2)%Q (3 # 2)%Q))
  = [1; 2].
Proof.
  exact (proj1 (proj2 (frames_each_mode_processes Demo.model Demo.studio))
           (1 # 10)%Q (1 # 4)%Q (1 # 2)%Q (3 # 2)%Q eq_refl).
Defined.


(** ** Part IV: properties on the program's binary64 numbers *)

(** *** Comparison and the operations on doubles *)

Section Binary64.

Lemma SFcompare_antisym (x y : spec_float) :
  SFcompare y x = option_map CompOpp (SFcompare x y).
Proof.
  destruct x as [sx|sx| |sx mx ex], y as [sy|sy| |sy my ey];
    try destruct sx; try destruct sy; try reflexivity.
  - cbn. rewrite (Z.compare_antisym ex ey).
    destruct (ex ?= ey)%Z; cbn; try reflexivity.
    rewrite (Pos.compare_cont_antisym mx my Eq). reflexivity.
  - cbn. rewrite (Z.compare_antisym ex ey).
    destruct (ex ?= ey)%Z; cbn; try reflexivity.
    rewrite (Pos.compare_cont_antisym mx my Eq). reflexivity.
Qed.

Lemma SFcompare_Eq (x y : spec_float) :
  SFcompare x y = Some Eq ->
  x = y \/ exists s t, x = S754_zero s /\ y = S754_zero t.
Proof.
  destruct x as [sx|sx| |sx mx ex], y as [sy|sy| |sy my ey]; cbn;
    try discriminate;
    try (destruct sx; discriminate); try (destruct sy; discriminate).
  - intros _. right. eauto.
  - destruct sx, sy; try discriminate; intros _; now left.
  - destruct sx, sy; try discriminate;
      destruct (ex ?= ey)%Z eqn:E; try discriminate;
      apply Z.compare_eq in E; subst ey;
      change (Pos.compare_cont Eq mx my) with (mx ?= my)%positive;
      destruct (mx ?= my)%positive eqn:M; try discriminate;
      apply Pos.compare_eq in M; subst my; intros _; now left.
Qed.

Lemma SFcompare_refl (x : spec_float) :
  x <> S754_nan -> SFcompare x x = Some Eq.
Proof.
  destruct x as [s|s| |s m e]; cbn; intros NN; try congruence.
  - now destruct s.
  - rewrite Z.compare_refl.
    change (Pos.compare_cont Eq m m) with (m ?= m)%positive.
    rewrite Pos.compare_refl. now destruct s.
Qed.

Lemma SFcompare_some (x y : spec_float) :
  x <> S754_nan -> y <> S754_nan -> exists c, SFcompare x y = Some c.
Proof.
  destruct x as [sx|sx| |sx mx ex], y as [sy|sy| |sy my ey]; cbn;
    intros NX NY; try congruence; eauto.
Qed.

Lemma is_number_spec (x : float) :
  is_number x = true <-> Prim2SF x <> S754_nan.
Proof.
  unfold is_number. rewrite FloatAxioms.eqb_spec. unfold SFeqb. split.
  - intros E N. rewrite N in E. discriminate.
  - intros N. now rewrite (SFcompare_refl N).
Qed.

(** For two doubles that are not NaN exactly one of [p < q], [q < p] and
    "equal as numbers" holds; the last means the same double or two zeros. *)
Lemma number_trichotomy (p q : float) :
  is_number p = true -> is_number q = true ->
  (PrimFloat.ltb p q = true /\ PrimFloat.ltb q p = false /\
   PrimFloat.leb q p = false /\ PrimFloat.leb p q = true) \/
  (PrimFloat.ltb q p = true /\ PrimFloat.ltb p q = false /\
   PrimFloat.leb p q = false /\ PrimFloat.leb q p = true) \/
  (PrimFloat.ltb p q = false /\ PrimFloat.ltb q p = false /\
   PrimFloat.leb p q = true /\ PrimFloat.leb q p = true /\
   same_double p q).
Proof.
  intros P Q. apply is_number_spec in P. apply is_number_spec in Q.
  rewrite !ltb_spec, !leb_spec. unfold SFltb, SFleb.
  rewrite (SFcompare_antisym (Prim2SF p) (Prim2SF q)).
  destruct (SFcompare_some P Q) as [c E]. rewrite E.
  destruct c; cbn.
  - right. right. repeat split.
    destruct (SFcompare_Eq _ _ E) as [S|S]; [left | right; exact S].
    now apply Prim2SF_inj.
  - left. repeat split.
  - right. left. repeat split.
Qed.

Lemma SFadd_comm (x y : spec_float) : SF64add x y = SF64add y x.
Proof.
  unfold SF64add.
  destruct x as [sx|sx| |sx mx ex], y as [sy|sy| |sy my ey];
    try destruct sx; try destruct sy; try reflexivity;
    unfold SFadd; cbv zeta; rewrite (Z.min_comm ey ex);
    f_equal; apply Z.add_comm.
Qed.

Lemma float_add_comm (x y : float) : (x + y = y + x)%float.
Proof. apply Prim2SF_inj. rewrite !add_spec. apply SFadd_comm. Qed.

#[local] Abbreviation same := same_double.

Lemma sub_same (x1 x2 y1 y2 : float) :
  same x1 x2 -> same y1 y2 -> same (x1 - y1)%float (x2 - y2)%float.
Proof.
  intros [->|(s1 & s2 & X1 & X2)] [->|(t1 & t2 & Y1 & Y2)].
  - now left.
  - destruct (Prim2SF x2) as [s|s| |s m e] eqn:X.
    + right. exists (if xorb s t1 then s else false),
                    (if xorb s t2 then s else false).
      rewrite !sub_spec, X, Y1, Y2. split; now destruct s, t1, t2.
    + left. apply Prim2SF_inj. now rewrite !sub_spec, X, Y1, Y2.
    + left. apply Prim2SF_inj. now rewrite !sub_spec, X, Y1, Y2.
    + left. apply Prim2SF_inj. now rewrite !sub_spec, X, Y1, Y2.
  - destruct (Prim2SF y2) as [t|t| |t m e] eqn:Y.
    + right. exists (if xorb s1 t then s1 else false),
                    (if xorb s2 t then s2 else false).
      rewrite !sub_spec, X1, X2, Y. split; now destruct s1, s2, t.
    + left. apply Prim2SF_inj. now rewrite !sub_spec, X1, X2, Y.
    + left. apply Prim2SF_inj. now rewrite !sub_spec, X1, X2, Y.
    + left. apply Prim2SF_inj. now rewrite !sub_spec, X1, X2, Y.
  - right. exists (if xorb s1 t1 then s1 else false),
                  (if xorb s2 t2 then s2 else false).
    rewrite !sub_spec, X1, X2, Y1, Y2. split; now destruct s1, s2, t1, t2.
Qed.

Lemma py_max_zero_same (d1 d2 : float) :
  same d1 d2 -> py_max zero d1 = py_max zero d2.
Proof.
  intros [->|(s & t & D1 & D2)]; [reflexivity|].
  unfold py_max, gtb. cbn [ltb zero F_PyNum].
  rewrite !ltb_spec, D1, D2. reflexivity.
Qed.

Lemma py_min_swap (p q : float) :
  is_number p = true -> is_number q = true -> same (py_min p q) (py_min q p).
Proof.
  intros P Q. unfold py_min. cbn [ltb F_PyNum].
  destruct (number_trichotomy P Q)
    as [(-> & -> & _)|[(-> & -> & _)|(-> & -> & _ & _ & S)]].
  - now left.
  - now left.
  - exact S.
Qed.

Lemma py_max_swap (p q : float) :
  is_number p = true -> is_number q = true -> same (py_max p q) (py_max q p).
Proof.
  intros P Q. unfold py_max, gtb. cbn [ltb F_PyNum].
  destruct (number_trichotomy P Q)
    as [(-> & -> & _)|[(-> & -> & _)|(-> & -> & _ & _ & S)]].
  - now left.
  - now left.
  - exact S.
Qed.

Lemma overlap_side_swap (lo1 hi1 lo2 hi2 : float) :
  is_number lo1 = true -> is_number hi1 = true ->
  is_number lo2 = true -> is_number hi2 = true ->
  py_max zero (sub (py_min hi1 hi2) (py_max lo1 lo2))
  = py_max zero (sub (py_min hi2 hi1) (py_max lo2 lo1)).
Proof.
  intros L1 H1 L2 H2. apply py_max_zero_same.
  apply (sub_same (py_min_swap H1 H2) (py_max_swap L1 L2)).
Qed.

Lemma numeric_box_spec (b : Box float) :
  numeric_box b = true ->
  is_number (bx1 b) = true /\ is_number (by1 b) = true /\
  is_number (bx2 b) = true /\ is_number (by2 b) = true.
Proof.
  unfold numeric_box. rewrite !andb_true_iff. tauto.
Qed.



End Binary64.

(** *** The clamped area on doubles *)

Section AreaBinary64.

Lemma binary_round_aux_sign (sx : bool) (mx ex : Z) (lx : location) :
  binary_round_aux prec emax sx mx ex lx = S754_nan \/
  (exists m e, binary_round_aux prec emax sx mx ex lx = S754_finite sx m e) \/
  binary_round_aux prec emax sx mx ex lx = S754_zero sx \/
  binary_round_aux prec emax sx mx ex lx = S754_infinity sx.
Proof.
  unfold binary_round_aux.
  destruct (shr_fexp prec emax mx ex lx) as [mrs' e'].
  destruct (shr_fexp prec emax _ e' loc_Exact) as [mrs'' e''].
  destruct (shr_m mrs'') as [|m|m]; [tauto | | tauto].
  destruct (e'' <=? emax - prec)%Z; [right; left; eauto | tauto].
Qed.

Lemma SFmul_nonneg (x y : spec_float) :
  sf_nonneg x = true -> sf_nonneg y = true ->
  SF64mul x y = S754_nan \/ sf_nonneg (SF64mul x y) = true.
Proof.
  unfold SF64mul.
  destruct x as [[|]|[|]| |[|] mx ex], y as [[|]|[|]| |[|] my ey];
    cbn [sf_nonneg]; try discriminate; intros _ _;
    try (right; reflexivity); try (left; reflexivity).
  unfold SFmul. cbn [xorb].
  destruct (binary_round_aux_sign false (Zpos (mx * my)) (ex + ey) loc_Exact)
    as [E|[(m & e & E)|[E|E]]]; rewrite E; auto.
Qed.

Lemma py_max_zero_nonneg_binary64 (d : float) :
  sf_nonneg (Prim2SF (py_max zero d)) = true.
Proof.
  unfold py_max, gtb. cbn [ltb zero F_PyNum].
  destruct (PrimFloat.ltb 0 d) eqn:L; [|reflexivity].
  rewrite ltb_spec in L. change (Prim2SF 0) with (S754_zero false) in L.
  destruct (Prim2SF d) as [[|]|[|]| |[|] m e]; cbn in L;
    try discriminate; reflexivity.
Qed.

(** X24.  On doubles the clamped area [max(0, x2-x1) * max(0, y2-y1)] is
    never below zero, whatever the four coordinates are (NaN and
    infinities included): the test [area < 0] is False for it, and when it
    is not a NaN, [0 <= area] is True. *)
Theorem clamped_area_binary64 (x1 y1 x2 y2 : float) :
  PrimFloat.ltb (clamped_area x1 y1 x2 y2) 0 = false /\
  (is_number (clamped_area x1 y1 x2 y2) = true ->
   PrimFloat.leb 0 (clamped_area x1 y1 x2 y2) = true).
Proof.
  unfold clamped_area. cbn [mul sub F_PyNum].
  set (w := py_max zero (PrimFloat.sub x2 x1)).
  set (h := py_max zero (PrimFloat.sub y2 y1)).
  pose proof (SFmul_nonneg (Prim2SF w) (Prim2SF h)
                (py_max_zero_nonneg_binary64 _)
                (py_max_zero_nonneg_binary64 _)) as S.
  rewrite <- mul_spec in S.
  split.
  - rewrite ltb_spec. change (Prim2SF 0) with (S754_zero false).
    destruct S as [S|S]; [now rewrite S|].
    destruct (Prim2SF (w * h)%float) as [[|]|[|]| |[|] m e];
      try discriminate; reflexivity.
  - intros NN. apply is_number_spec in NN.
    rewrite leb_spec. change (Prim2SF 0) with (S754_zero false).
    destruct S as [S|S]; [contradiction|].
    destruct (Prim2SF (w * h)%float) as [[|]|[|]| |[|] m e];
      try discriminate; reflexivity.
Qed.

End AreaBinary64.

(** *** The overlap of a box with itself, in rounded arithmetic *)

Section SelfOverlap.
Context {N : Type} `{PyNum N}.
Variable val : N -> Q.

Lemma py_max_same (x : N) : py_max x x = x.
Proof. unfold py_max. now destruct (gtb x x). Qed.

Lemma py_min_same (x : N) : py_min x x = x.
Proof. unfold py_min. now destruct (ltb x x). Qed.

(** In every number type, the overlap of a box with itself is its area
    divided by [area + area - area + 1e-6]. *)
Lemma compute_iou_self_value (A : Box N) :
  compute_iou A A = div (box_area A) (self_union (box_area A)).
Proof.
  unfold compute_iou, self_union, box_area, clamped_area.
  now rewrite !py_max_same, !py_min_same.
Qed.

(** For a box whose area is at least 1, and as long as the four operations
    between that area and the result are rounded, the overlap of the box
    with itself is within [2e-6] of 1. *)
Lemma self_overlap_within_tolerance (A : Box N) :
  (1 <= val (box_area A))%Q ->
  (0 < val eps /\ val eps <= 1 # 1000000)%Q ->
  self_overlap_rounded val (box_area A) ->
  (1 - (2 # 1000000) <= val (compute_iou A A)
   /\ val (compute_iou A A) <= 1 + (2 # 1000000))%Q.
Proof.
  rewrite compute_iou_self_value.
  set (a := box_area A).
  intros A1 [E0 E1] ((S1 & S2) & (D1 & D2) & (U1 & U2) & (R1 & R2)).
  unfold unit_roundoff in *.
  set (va := val a) in *. set (vs := val (add a a)) in *.
  set (vd := val (sub (add a a) a)) in *. set (ve := val eps) in *.
  set (vu := val (self_union a)) in *.
  set (vr := val (div a (self_union a))) in *.
  assert (UP : (0 < vu)%Q) by lra.
  assert (QL : (1 - (15 # 10000000) <= va / vu)%Q).
  { apply Qle_shift_div_l; [exact UP | lra]. }
  assert (QU : (va / vu <= 1 + (1 # 1000000))%Q).
  { apply Qle_shift_div_r; [exact UP | lra]. }
  set (q := (va / vu)%Q) in *.
  split; lra.
Qed.

End SelfOverlap.

(** *** Rounding on doubles *)

Section RoundingSteps.
Local Open Scope Z_scope.

(** [digits2_pos] counts binary digits: [2^(d-1) <= p < 2^d]. *)
Lemma digits2_size (p : positive) : digits2_pos p = Pos.size p.
Proof. induction p; cbn; now rewrite ?IHp. Qed.

Lemma digits2_bounds (p : positive) :
  2 ^ (Zpos (digits2_pos p) - 1) <= Zpos p < 2 ^ Zpos (digits2_pos p).
Proof.
  rewrite digits2_size.
  pose proof (Pos.size_gt p) as G. pose proof (Pos.size_le p) as L.
  assert (E : Zpos (2 ^ Pos.size p) = 2 ^ Zpos (Pos.size p)) by apply Pos2Z.inj_pow.
  assert (P : 2 ^ Zpos (Pos.size p) = 2 * 2 ^ (Zpos (Pos.size p) - 1)).
  { rewrite <- Z.pow_succ_r by lia. f_equal. lia. }
  split; lia.
Qed.

Lemma digits2_unique (p : positive) (d : Z) :
  2 ^ (d - 1) <= Zpos p < 2 ^ d -> Zpos (digits2_pos p) = d.
Proof.
  intros [L U]. pose proof (digits2_bounds p) as [L' U'].
  assert (D : 0 < d).
  { destruct (Z.lt_trichotomy d 0) as [N|[N|N]]; [|subst|exact N].
    - rewrite Z.pow_neg_r in U by lia. lia.
    - cbn in U. lia. }
  set (s := Zpos (digits2_pos p)) in *.
  destruct (Z.lt_trichotomy s d) as [C|[C|C]]; [|exact C|]; exfalso.
  - assert (2 ^ s <= 2 ^ (d - 1)) by (apply Z.pow_le_mono_r; lia). lia.
  - assert (2 ^ d <= 2 ^ (s - 1)) by (apply Z.pow_le_mono_r; lia). lia.
Qed.

(** Shifting right drops low bits: the mantissa is divided by a power of
    two, rounding down. *)
Lemma shr_1_m (r : shr_record) :
  0 <= shr_m r -> shr_m (shr_1 r) = shr_m r / 2.
Proof.
  destruct r as [m rb sb]. cbn [shr_m]. intros P.
  destruct m as [|[p|p|]|p]; cbn [shr_1 shr_m]; try lia; try reflexivity.
  - apply Z.div_unique with 1; lia.
  - apply Z.div_unique with 0; lia.
Qed.

Lemma iter_shr_m (p : positive) : forall r : shr_record,
  0 <= shr_m r -> shr_m (iter_pos shr_1 p r) = shr_m r / 2 ^ Zpos p.
Proof.
  induction p as [p IH|p IH|]; intros r P; cbn [iter_pos].
  - assert (P1 : 0 <= shr_m (shr_1 r)) by (rewrite shr_1_m by exact P; apply Z.div_pos; lia).
    assert (P2 : 0 <= shr_m (iter_pos shr_1 p (shr_1 r))).
    { rewrite IH by exact P1. apply Z.div_pos; [exact P1 | apply Z.pow_pos_nonneg; lia]. }
    rewrite IH by exact P2. rewrite IH by exact P1. rewrite shr_1_m by exact P.
    rewrite !Z.div_div by (try apply Z.pow_pos_nonneg; lia).
    f_equal.
    replace (Zpos p~1) with (1 + Zpos p + Zpos p) by lia.
    rewrite !Z.pow_add_r by lia. lia.
  - assert (P2 : 0 <= shr_m (iter_pos shr_1 p r)).
    { rewrite IH by exact P. apply Z.div_pos; [exact P | apply Z.pow_pos_nonneg; lia]. }
    rewrite IH by exact P2. rewrite IH by exact P.
    rewrite !Z.div_div by (try apply Z.pow_pos_nonneg; lia).
    f_equal.
    replace (Zpos p~0) with (Zpos p + Zpos p) by lia.
    rewrite !Z.pow_add_r by lia. lia.
  - rewrite shr_1_m by exact P. reflexivity.
Qed.

Lemma shr_record_of_loc_m (m : Z) (l : location) : shr_m (shr_record_of_loc m l) = m.
Proof. destruct l as [|[]]; reflexivity. Qed.

Lemma shr_fexp_spec (p : positive) (e : Z) (l : location) (n : Z) :
  fexp prec emax (Zpos (digits2_pos p) + e) - e = n -> 0 <= n ->
  exists r, shr_fexp prec emax (Zpos p) e l = (r, e + n) /\ shr_m r = Zpos p / 2 ^ n.
Proof.
  intros F P. unfold shr_fexp. cbn [Zdigits2]. rewrite F. unfold shr.
  destruct n as [|n|n]; [| |lia].
  - eexists. split; [rewrite Z.add_0_r; reflexivity|].
    rewrite shr_record_of_loc_m. cbn. now rewrite Z.div_1_r.
  - eexists. split; [reflexivity|].
    rewrite iter_shr_m; rewrite shr_record_of_loc_m; [reflexivity | lia].
Qed.

Lemma round_nearest_even_cases (m : Z) (l : location) :
  round_nearest_even m l = m \/ round_nearest_even m l = m + 1.
Proof.
  destruct l as [|[]]; cbn; auto. destruct (Z.even m); auto.
Qed.

Lemma fexp_normal (x : Z) : -1074 <= x - 53 -> fexp prec emax x = x - 53.
Proof. unfold fexp, emin, prec, emax. lia. Qed.

(** Rounding a positive mantissa of at least 53 digits, in the normal range:
    the result is the mantissa with its low bits dropped, or one more in the
    last place kept (renormalised when that carries into a 54th digit). *)
Lemma binary_round_aux_sandwich (p : positive) (e : Z) (l : location) :
  let d := Zpos (digits2_pos p) in
  53 <= d -> -1074 <= e + (d - 53) -> e + (d - 53) + 1 <= 971 ->
  exists m2 e2 c,
    binary_round_aux prec emax false (Zpos p) e l = S754_finite false m2 e2 /\
    (c = 0 \/ c = 1) /\
    Zpos m2 * 2 ^ (e2 - (e + (d - 53))) = Zpos p / 2 ^ (d - 53) + c /\
    e + (d - 53) <= e2 <= e + (d - 53) + 1 /\
    2 ^ 52 <= Zpos m2 < 2 ^ 53 /\
    2 ^ 52 <= Zpos p / 2 ^ (d - 53).
Proof.
  intros d D Lo Hi.
  pose proof (digits2_bounds p) as [BL BU]. fold d in BL, BU.
  set (k := d - 53) in *.
  assert (K : 0 <= k) by lia.
  assert (PK : 0 < 2 ^ k) by (apply Z.pow_pos_nonneg; lia).
  assert (E1 : 2 ^ (d - 1) = 2 ^ 52 * 2 ^ k).
  { rewrite <- Z.pow_add_r by lia. f_equal. lia. }
  assert (E2 : 2 ^ d = 2 ^ 53 * 2 ^ k).
  { rewrite <- Z.pow_add_r by lia. f_equal. lia. }
  set (m1 := Zpos p / 2 ^ k).
  assert (M1 : 2 ^ 52 <= m1 < 2 ^ 53).
  { split.
    - apply Z.div_le_lower_bound; lia.
    - apply Z.div_lt_upper_bound; lia. }
  destruct (@shr_fexp_spec p e l k) as (r1 & S1 & R1).
  { fold d. rewrite fexp_normal by lia. lia. }
  { exact K. }
  fold m1 in R1.
  unfold binary_round_aux. rewrite S1. rewrite R1.
  set (c := round_nearest_even m1 (loc_of_shr_record r1) - m1).
  assert (C : c = 0 \/ c = 1).
  { unfold c. destruct (round_nearest_even_cases m1 (loc_of_shr_record r1)) as [->| ->]; lia. }
  replace (round_nearest_even m1 (loc_of_shr_record r1)) with (m1 + c) by (unfold c; lia).
  clearbody c. clear S1 R1 r1.
  assert (Q : 0 < m1 + c) by lia.
  destruct (m1 + c) as [|p2|p2] eqn:EQ; [lia| |lia].
  destruct (Z.ltb_spec (Zpos p2) (2 ^ 53)) as [Small|Big].
  - assert (D2 : Zpos (digits2_pos p2) = 53) by (apply digits2_unique; lia).
    destruct (@shr_fexp_spec p2 (e + k) loc_Exact 0) as (r2 & S2 & R2).
    { rewrite D2. rewrite fexp_normal by lia. lia. }
    { lia. }
    rewrite S2. rewrite R2. cbn [Z.pow]. rewrite Z.div_1_r.
    replace (e + k + 0 <=? emax - prec) with true
      by (symmetry; apply Z.leb_le; unfold emax, prec; lia).
    exists p2, (e + k + 0), c. split; [reflexivity|]. split; [exact C|].
    replace (e + k + 0 - (e + k)) with 0 by lia. cbn [Z.pow].
    split; [lia|]. split; [lia|]. split; lia.
  - assert (EQ53 : Zpos p2 = 2 ^ 53) by lia.
    assert (D2 : Zpos (digits2_pos p2) = 54) by (apply digits2_unique; lia).
    destruct (@shr_fexp_spec p2 (e + k) loc_Exact 1) as (r2 & S2 & R2).
    { rewrite D2. rewrite fexp_normal by lia. lia. }
    { lia. }
    rewrite S2. rewrite R2. rewrite EQ53.
    change (2 ^ 53 / 2 ^ 1) with (Zpos 4503599627370496).
    replace (e + k + 1 <=? emax - prec) with true
      by (symmetry; apply Z.leb_le; unfold emax, prec; lia).
    exists 4503599627370496%positive, (e + k + 1), c. split; [reflexivity|]. split; [exact C|].
    replace (e + k + 1 - (e + k)) with 1 by lia.
    split; [lia|]. split; [lia|]. split; lia.
Qed.

Lemma shr_fexp_none (p : positive) (e : Z) (l : location) :
  fexp prec emax (Zpos (digits2_pos p) + e) - e = 0 ->
  shr_fexp prec emax (Zpos p) e l = (shr_record_of_loc (Zpos p) l, e).
Proof. intros F. unfold shr_fexp. cbn [Zdigits2]. rewrite F. reflexivity. Qed.

(** Rounding a normal double gives it back. *)
Lemma binary_round_aux_canonical (m : positive) (e : Z) :
  Zpos (digits2_pos m) = 53 -> -1074 <= e <= 971 ->
  binary_round_aux prec emax false (Zpos m) e loc_Exact = S754_finite false m e.
Proof.
  intros D E.
  assert (F : fexp prec emax (Zpos (digits2_pos m) + e) - e = 0).
  { rewrite D, fexp_normal by lia. lia. }
  unfold binary_round_aux. rewrite (@shr_fexp_none _ _ _ F).
  cbn [shr_record_of_loc shr_m loc_of_shr_record round_nearest_even].
  rewrite (@shr_fexp_none _ _ _ F). cbn [shr_record_of_loc shr_m].
  replace (e <=? emax - prec) with true
    by (symmetry; apply Z.leb_le; unfold emax, prec; lia).
  reflexivity.
Qed.

Lemma binary_round_canonical (m : positive) (e : Z) :
  Zpos (digits2_pos m) = 53 -> -1074 <= e <= 971 ->
  binary_round prec emax false m e = S754_finite false m e.
Proof.
  intros D E. unfold binary_round, shl_align.
  rewrite D, fexp_normal by lia.
  replace (53 + e - 53 - e) with 0 by lia.
  now apply binary_round_aux_canonical.
Qed.

(** Doubling a normal double is exact. *)
Lemma SFadd_same (m : positive) (e : Z) :
  Zpos (digits2_pos m) = 53 -> -1074 <= e <= 970 ->
  SFadd prec emax (S754_finite false m e) (S754_finite false m e)
  = S754_finite false m (e + 1).
Proof.
  intros D E. unfold SFadd. cbv zeta. rewrite Z.min_id.
  unfold shl_align at 1 2. rewrite Z.sub_diag. cbn [fst cond_Zopp].
  change (Zpos m + Zpos m) with (Zpos (m + m)). rewrite Pos.add_diag.
  unfold binary_normalize, binary_round, shl_align.
  assert (D1 : Zpos (digits2_pos m~0) = 54).
  { cbn [digits2_pos]. rewrite Pos2Z.inj_succ. lia. }
  rewrite D1, fexp_normal by lia.
  replace (54 + e - 53 - e) with 1 by lia.
  unfold binary_round_aux.
  assert (S1 : shr_fexp prec emax (Zpos m~0) e loc_Exact
               = ({| shr_m := Zpos m; shr_r := false; shr_s := false |}, e + 1)).
  { unfold shr_fexp. cbn [Zdigits2]. rewrite D1, fexp_normal by lia.
    replace (54 + e - 53 - e) with 1 by lia. reflexivity. }
  rewrite S1. cbn [shr_m loc_of_shr_record round_nearest_even].
  rewrite shr_fexp_none by (rewrite D, fexp_normal by lia; lia).
  cbn [shr_record_of_loc shr_m].
  replace (e + 1 <=? emax - prec) with true
    by (symmetry; apply Z.leb_le; unfold emax, prec; lia).
  reflexivity.
Qed.

(** Taking a normal double from its double is exact. *)
Lemma SFsub_double (m : positive) (e : Z) :
  Zpos (digits2_pos m) = 53 -> -1074 <= e <= 970 ->
  SFsub prec emax (S754_finite false m (e + 1)) (S754_finite false m e)
  = S754_finite false m e.
Proof.
  intros D E. unfold SFsub. cbv zeta.
  replace (Z.min (e + 1) e) with e by lia.
  unfold shl_align at 1 2. rewrite Z.sub_diag.
  replace (e - (e + 1)) with (Zneg 1) by lia.
  cbn [fst cond_Zopp Pos.iter].
  replace (Zpos m~0 - Zpos m) with (Zpos m) by lia.
  unfold binary_normalize. apply binary_round_canonical; [exact D | lia].
Qed.

Lemma pos_iter_xO (m d : positive) : Zpos (Pos.iter xO m d) = Zpos m * 2 ^ Zpos d.
Proof.
  induction d as [|d IH] using Pos.peano_ind.
  - cbn [Pos.iter]. lia.
  - rewrite Pos.iter_succ, Pos2Z.inj_xO, IH, Pos2Z.inj_succ, Z.pow_succ_r by lia. lia.
Qed.

Lemma digits2_lower (p : positive) (n : Z) :
  2 ^ n <= Zpos p -> n + 1 <= Zpos (digits2_pos p).
Proof.
  intros L. pose proof (digits2_bounds p) as [_ U].
  destruct (Z.le_gt_cases (n + 1) (Zpos (digits2_pos p))) as [C|C]; [exact C|].
  assert (2 ^ Zpos (digits2_pos p) <= 2 ^ n) by (apply Z.pow_le_mono_r; lia). lia.
Qed.

Lemma digits2_upper (p : positive) (n : Z) :
  0 <= n -> Zpos p < 2 ^ n -> Zpos (digits2_pos p) <= n.
Proof.
  intros N U. pose proof (digits2_bounds p) as [L _].
  destruct (Z.le_gt_cases (Zpos (digits2_pos p)) n) as [C|C]; [exact C|].
  assert (2 ^ n <= 2 ^ (Zpos (digits2_pos p) - 1)) by (apply Z.pow_le_mono_r; lia). lia.
Qed.

(** Adding a positive double of exponent [-72] (as [1e-6] has) to a normal
    double that is at least 1: the sum is the exact sum with its low bits
    dropped, or one more in the last place kept. *)
Lemma SFadd_small (m : positive) (e : Z) (me : positive) :
  Zpos (digits2_pos m) = 53 -> -52 <= e <= 948 -> Zpos me < 2 ^ 53 ->
  exists mu eu c K,
    SFadd prec emax (S754_finite false m e) (S754_finite false me (-72))
    = S754_finite false mu eu /\
    (c = 0 \/ c = 1) /\
    e + 72 <= K <= e + 73 /\
    Zpos mu * 2 ^ (eu - (-72 + K)) = (Zpos m * 2 ^ (e + 72) + Zpos me) / 2 ^ K + c /\
    -72 + K <= eu <= -72 + K + 1 /\
    2 ^ 52 <= Zpos mu < 2 ^ 53 /\
    2 ^ 52 <= (Zpos m * 2 ^ (e + 72) + Zpos me) / 2 ^ K.
Proof.
  intros D E ME.
  pose proof (digits2_bounds m) as [ML MU]. rewrite D in ML, MU.
  unfold SFadd. cbv zeta.
  replace (Z.min e (-72)) with (-72) by lia.
  unfold shl_align at 1 2. rewrite Z.sub_diag.
  destruct (-72 - e) as [|d|d] eqn:SH; [lia|lia|].
  cbn [fst cond_Zopp].
  change (Zpos (Pos.iter xO m d) + Zpos me) with (Zpos (Pos.iter xO m d + me)).
  set (M := (Pos.iter xO m d + me)%positive).
  assert (MV : Zpos M = Zpos m * 2 ^ (e + 72) + Zpos me).
  { unfold M. rewrite Pos2Z.inj_add, pos_iter_xO.
    replace (Zpos d) with (e + 72) by lia. reflexivity. }
  assert (T : 2 ^ 20 <= 2 ^ (e + 72)) by (apply Z.pow_le_mono_r; lia).
  assert (P124 : 2 ^ (e + 124) = 2 ^ 52 * 2 ^ (e + 72)).
  { rewrite <- Z.pow_add_r by lia. f_equal. lia. }
  assert (P126 : 2 ^ (e + 126) = 2 ^ 54 * 2 ^ (e + 72)).
  { rewrite <- Z.pow_add_r by lia. f_equal. lia. }
  assert (DL : e + 125 <= Zpos (digits2_pos M)).
  { replace (e + 125) with (e + 124 + 1) by lia. apply digits2_lower. rewrite MV, P124. nia. }
  assert (DU : Zpos (digits2_pos M) <= e + 126).
  { apply digits2_upper; [lia|]. rewrite MV, P126. nia. }
  unfold binary_normalize, binary_round, shl_align.
  rewrite fexp_normal by lia.
  destruct (Zpos (digits2_pos M) + -72 - 53 - -72) as [|s|s] eqn:SH2; [| |lia].
  - lia.
  - destruct (@binary_round_aux_sandwich M (-72) loc_Exact)
      as (mu & eu & c & R & C & V & EU & MB & QB); [lia|lia|lia|].
    exists mu, eu, c, (Zpos (digits2_pos M) - 53).
    rewrite R. rewrite <- MV.
    split; [reflexivity|]. split; [exact C|]. split; [lia|].
    split; [exact V|]. split; [exact EU|]. split; [exact MB | exact QB].
Qed.

(** The quotient of two normal doubles of nearby exponents: the exact
    integer quotient of the scaled mantissas with its low bits dropped, or
    one more in the last place kept. *)
Lemma SFdiv_normal (m : positive) (e : Z) (mu : positive) (eu : Z) :
  Zpos (digits2_pos m) = 53 -> Zpos (digits2_pos mu) = 53 ->
  -900 <= e - eu <= 900 ->
  exists mr er c K,
    SFdiv prec emax (S754_finite false m e) (S754_finite false mu eu)
    = S754_finite false mr er /\
    (c = 0 \/ c = 1) /\
    0 <= K /\
    Zpos mr * 2 ^ (er - (e - eu - 53 + K)) = Zpos m * 2 ^ 53 / Zpos mu / 2 ^ K + c /\
    e - eu - 53 + K <= er /\
    2 ^ 52 <= Zpos m * 2 ^ 53 / Zpos mu / 2 ^ K.
Proof.
  intros D DU E.
  pose proof (digits2_bounds m) as [ML MU]. rewrite D in ML, MU.
  pose proof (digits2_bounds mu) as [UL UU]. rewrite DU in UL, UU.
  unfold SFdiv, SFdiv_core_binary. cbn [Zdigits2 xorb]. rewrite D, DU.
  rewrite fexp_normal by lia.
  replace (Z.min (53 + e - (53 + eu) - 53) (e - eu)) with (e - eu - 53) by lia.
  replace (e - eu - (e - eu - 53)) with 53 by lia.
  cbv iota beta. rewrite Z.shiftl_mul_pow2 by lia.
  set (q := Zpos m * 2 ^ 53 / Zpos mu).
  assert (QE : Z.div_eucl (Zpos m * 2 ^ 53) (Zpos mu)
               = (q, snd (Z.div_eucl (Zpos m * 2 ^ 53) (Zpos mu)))).
  { unfold q, Z.div. now destruct (Z.div_eucl (Zpos m * 2 ^ 53) (Zpos mu)). }
  rewrite QE.
  assert (QL : 2 ^ 52 <= q) by (apply Z.div_le_lower_bound; lia).
  assert (QU : q < 2 ^ 54) by (apply Z.div_lt_upper_bound; lia).
  destruct q as [|pq|pq] eqn:QV; [lia| |lia].
  assert (DL : 53 <= Zpos (digits2_pos pq)).
  { change 53 with (52 + 1). apply digits2_lower. exact QL. }
  assert (DH : Zpos (digits2_pos pq) <= 54) by (apply digits2_upper; lia).
  destruct (@binary_round_aux_sandwich pq (e - eu - 53)
              (new_location (Zpos mu) (snd (Z.div_eucl (Zpos m * 2 ^ 53) (Zpos mu)))))
    as (mr & er & c & R & C & V & ER & MB & QB); [lia|lia|lia|].
  exists mr, er, c, (Zpos (digits2_pos pq) - 53).
  rewrite R.
  split; [reflexivity|]. split; [exact C|]. split; [lia|].
  split; [exact V|]. split; [lia | exact QB].
Qed.

End RoundingSteps.

(** The exact value of a finite double is its mantissa times a power of
    two. *)
Lemma float_exact_finite (x : float) (s : bool) (m : positive) (e : Z) :
  Prim2SF x = S754_finite s m e ->
  (float_exact x == inject_Z (if s then Zneg m else Zpos m) * 2 ^ e)%Q.
Proof.
  intros P. unfold float_exact. rewrite P. cbv zeta.
  set (n := if s then Zneg m else Zpos m).
  destruct e as [|p|p].
  - cbn. unfold inject_Z. ring.
  - change (n * 2 ^ Zpos p # 1)%Q with (inject_Z (n * 2 ^ Zpos p)).
    rewrite inject_Z_mult, Zpower_Qpower by lia. reflexivity.
  - rewrite Qmake_Qdiv.
    change (Zneg p) with (- Zpos p)%Z. rewrite Qpower_opp.
    rewrite Pos2Z.inj_pow, Zpower_Qpower by lia. reflexivity.
Qed.

Lemma scale_shift (n a b : Z) :
  (b <= a)%Z -> (inject_Z n * 2 ^ a == inject_Z (n * 2 ^ (a - b)) * 2 ^ b)%Q.
Proof.
  intros L. rewrite inject_Z_mult, Zpower_Qpower by lia.
  change (inject_Z 2) with 2%Q.
  replace a with (a - b + b)%Z at 1 by lia.
  rewrite Qpower_plus by discriminate. ring.
Qed.

(** Dropping the low bits of [M], of which at least 53 digits [m1] are kept,
    or adding one in the last place kept, changes [M] by at most [M / 2^52]. *)
Lemma one_ulp (M m1 W c : Z) :
  (0 < W -> 2 ^ 52 <= m1 -> m1 * W <= M < m1 * W + W -> c = 0 \/ c = 1 ->
   M * 4503599627370495 <= (m1 + c) * W * 4503599627370496
   /\ (m1 + c) * W * 4503599627370496 <= M * 4503599627370497)%Z.
Proof.
  intros PW L [B1 B2] C.
  assert (K : (W * 2 ^ 52 <= m1 * W)%Z) by nia.
  change (2 ^ 52)%Z with 4503599627370496%Z in *.
  destruct C as [-> | ->]; split; nia.
Qed.

Lemma one_ulp_rounded (X V s : Q) (M B : Z) :
  (0 < s)%Q -> (X == inject_Z M * s)%Q -> (V == inject_Z B * s)%Q ->
  (M * 4503599627370495 <= B * 4503599627370496
   /\ B * 4503599627370496 <= M * 4503599627370497)%Z ->
  (X * (1 - unit_roundoff) <= V /\ V <= X * (1 + unit_roundoff))%Q.
Proof.
  intros PS HX HV [L U].
  rewrite Zle_Qle in L. rewrite Zle_Qle in U.
  rewrite !inject_Z_mult in L, U.
  set (qm := inject_Z M) in *. set (qb := inject_Z B) in *.
  unfold inject_Z in L, U. unfold unit_roundoff.
  assert (L' : (qm * (1 - (1 # 4503599627370496)) <= qb)%Q) by lra.
  assert (U' : (qb <= qm * (1 + (1 # 4503599627370496)))%Q) by lra.
  rewrite HX, HV. split.
  - setoid_replace (qm * s * (1 - (1 # 4503599627370496)))%Q
      with (qm * (1 - (1 # 4503599627370496)) * s)%Q by ring.
    apply Qmult_le_compat_r; [exact L' | apply Qlt_le_weak, PS].
  - setoid_replace (qm * s * (1 + (1 # 4503599627370496)))%Q
      with (qm * (1 + (1 # 4503599627370496)) * s)%Q by ring.
    apply Qmult_le_compat_r; [exact U' | apply Qlt_le_weak, PS].
Qed.

(** A double between 1 and 2^1000 is a positive normal number. *)
Lemma normal_of_bounds (a : float) :
  PrimFloat.leb 1 a = true -> PrimFloat.leb a 0x1p1000 = true ->
  exists m e, Prim2SF a = S754_finite false m e
              /\ Zpos (digits2_pos m) = 53%Z /\ (-52 <= e <= 948)%Z.
Proof.
  rewrite !leb_spec. intros L U.
  pose proof (Prim2SF_valid a) as V.
  assert (P1 : Prim2SF 1 = S754_finite false 4503599627370496 (-52)) by reflexivity.
  assert (P2 : Prim2SF 0x1p1000 = S754_finite false 4503599627370496 948) by reflexivity.
  rewrite P1 in L. rewrite P2 in U. clear P1 P2.
  destruct (Prim2SF a) as [s|s| |s m e]; try discriminate L.
  - destruct s; [discriminate L | discriminate U].
  - destruct s; [discriminate L|].
    unfold SFleb, SFcompare in L, U.
    assert (EL : (-52 <= e)%Z).
    { destruct (Z.compare_spec (-52) e); [lia | lia | discriminate L]. }
    assert (EU : (e <= 948)%Z).
    { destruct (Z.compare_spec e 948); [lia | lia | discriminate U]. }
    exists m, e. split; [reflexivity|]. split; [|lia].
    cbn [valid_binary] in V. unfold bounded, canonical_mantissa in V.
    apply andb_prop in V as [V _]. apply Z.eqb_eq in V.
    unfold fexp, emin, prec, emax in V. lia.
Qed.

Lemma rounded_exact (val : float -> Q) (X : Q) (x : float) :
  (0 <= X)%Q -> (val x == X)%Q -> rounded_from val X x.
Proof.
  intros P E. unfold rounded_from, unit_roundoff. rewrite E. split; lra.
Qed.

Lemma pow2_pos (e : Z) : (0 < 2 ^ e)%Q.
Proof. apply Qpower_0_lt. reflexivity. Qed.

(** On doubles the four operations between an area in [1, 2^1000] and the
    overlap of its box with itself are rounded in the sense of
    [self_overlap_rounded]: the doubling and the subtraction are exact, the
    addition of [1e-6] and the division are off by at most one unit in the
    last place. *)
Lemma self_overlap_rounded_binary64 (a : float) :
  PrimFloat.leb 1 a = true -> PrimFloat.leb a 0x1p1000 = true ->
  (1 <= float_exact a)%Q /\ self_overlap_rounded float_exact a.
Proof.
  intros L U.
  destruct (@normal_of_bounds a L U) as (m & e & PA & D & E).
  pose proof (digits2_bounds m) as [ML MU]. rewrite D in ML, MU.
  pose proof (@float_exact_finite a _ _ _ PA) as VA. cbv iota in VA.
  (* a + a *)
  assert (PS : Prim2SF (PrimFloat.add a a) = S754_finite false m (e + 1)).
  { rewrite add_spec, PA. apply SFadd_same; [exact D | lia]. }
  pose proof (@float_exact_finite _ _ _ _ PS) as VS. cbv iota in VS.
  (* (a + a) - a *)
  assert (PD : PrimFloat.sub (PrimFloat.add a a) a = a).
  { apply Prim2SF_inj. rewrite sub_spec, PS, PA. apply SFsub_double; [exact D | lia]. }
  (* a + 1e-6 *)
  assert (PE : Prim2SF eps = S754_finite false 4722366482869645 (-72)) by reflexivity.
  pose proof (@float_exact_finite _ _ _ _ PE) as VE. cbv iota in VE.
  destruct (@SFadd_small m e 4722366482869645 D E)
    as (mu & eu & c & K & PU & C & KB & UV & EU & MB & QB); [lia|].
  assert (PU' : Prim2SF (PrimFloat.add a eps) = S754_finite false mu eu).
  { rewrite add_spec, PA, PE. exact PU. }
  pose proof (@float_exact_finite _ _ _ _ PU') as VU. cbv iota in VU.
  assert (DU : Zpos (digits2_pos mu) = 53%Z) by (apply digits2_unique; lia).
  (* a / (a + 1e-6) *)
  destruct (@SFdiv_normal m e mu eu D DU)
    as (mr & er & c' & K' & PR & C' & KB' & RV & ER & QB'); [lia|].
  assert (PR' : Prim2SF (PrimFloat.div a (PrimFloat.add a eps)) = S754_finite false mr er).
  { rewrite div_spec, PA, PU'. exact PR. }
  pose proof (@float_exact_finite _ _ _ _ PR') as VR. cbv iota in VR.
  (* values *)
  assert (A1 : (1 <= float_exact a)%Q).
  { rewrite VA. rewrite (@scale_shift (Zpos m) e (-52)) by lia.
    assert (T : (0 < 2 ^ (e - -52))%Z) by (apply Z.pow_pos_nonneg; lia).
    assert (I : (4503599627370496 <= Zpos m * 2 ^ (e - -52))%Z) by nia.
    rewrite Zle_Qle in I.
    set (q := inject_Z (Zpos m * 2 ^ (e - -52))) in *.
    change (2 ^ (-52))%Q with (1 # 4503599627370496)%Q.
    unfold inject_Z in I. lra. }
  split; [exact A1|].
  unfold self_overlap_rounded, self_union.
  change (@add float F_PyNum) with PrimFloat.add.
  change (@sub float F_PyNum) with PrimFloat.sub.
  change (@div float F_PyNum) with PrimFloat.div.
  rewrite PD.
  assert (SS : (float_exact (PrimFloat.add a a) == float_exact a + float_exact a)%Q).
  { rewrite VS, VA. rewrite Qpower_plus by discriminate.
    change (2 ^ 1)%Q with 2%Q. ring. }
  split; [|split; [|split]].
  - apply rounded_exact; [lra | exact SS].
  - apply rounded_exact; [lra | lra].
  - apply (@one_ulp_rounded _ _ (2 ^ (-72))%Q
             (Zpos m * 2 ^ (e + 72) + 4722366482869645)
             (((Zpos m * 2 ^ (e + 72) + 4722366482869645) / 2 ^ K + c) * 2 ^ K)).
    + apply pow2_pos.
    + rewrite VA, VE. rewrite (@scale_shift (Zpos m) e (-72)) by lia.
      replace (e - -72)%Z with (e + 72)%Z by lia.
      rewrite inject_Z_plus. ring.
    + rewrite VU. rewrite (@scale_shift (Zpos mu) eu (-72 + K)) by lia.
      rewrite UV.
      rewrite (@scale_shift _ (-72 + K) (-72)) by lia.
      replace (-72 + K - -72)%Z with K by lia. reflexivity.
    + assert (PK : (0 < 2 ^ K)%Z) by (apply Z.pow_pos_nonneg; lia).
      apply one_ulp; [exact PK | exact QB | | exact C].
      pose proof (Z.mul_div_le (Zpos m * 2 ^ (e + 72) + 4722366482869645) (2 ^ K) PK).
      pose proof (Z.mul_succ_div_gt (Zpos m * 2 ^ (e + 72) + 4722366482869645) (2 ^ K) PK).
      lia.
  - apply (@one_ulp_rounded _ _ (2 ^ (e - eu - 53) / inject_Z (Zpos mu))%Q
             (Zpos m * 2 ^ 53)
             ((Zpos m * 2 ^ 53 / Zpos mu / 2 ^ K' + c') * (2 ^ K' * Zpos mu))).
    + apply Qlt_shift_div_l; [reflexivity|]. rewrite Qmult_0_l. apply pow2_pos.
    + rewrite VA, VU.
      rewrite !Qpower_minus by discriminate.
      rewrite inject_Z_mult.
      change (inject_Z (2 ^ 53)) with (2 ^ 53)%Q.
      pose proof (pow2_pos e). pose proof (pow2_pos eu). pose proof (pow2_pos 53).
      assert (0 < inject_Z (Zpos mu))%Q by reflexivity.
      field. repeat split; lra.
    + rewrite VR. rewrite (@scale_shift (Zpos mr) er (e - eu - 53 + K')) by lia.
      rewrite RV.
      rewrite (@scale_shift _ (e - eu - 53 + K') (e - eu - 53)) by lia.
      replace (e - eu - 53 + K' - (e - eu - 53))%Z with K' by lia.
      rewrite (inject_Z_mult _ (2 ^ K' * Zpos mu)), (inject_Z_mult (2 ^ K')).
      rewrite (inject_Z_mult _ (2 ^ K')).
      assert (0 < inject_Z (Zpos mu))%Q by reflexivity.
      field. lra.
    + assert (PK : (0 < 2 ^ K')%Z) by (apply Z.pow_pos_nonneg; lia).
      rewrite Z.mul_assoc.
      set (q := (Zpos m * 2 ^ 53 / Zpos mu)%Z) in *.
      pose proof (Z.mul_div_le (Zpos m * 2 ^ 53) (Zpos mu) eq_refl) as Q1.
      pose proof (Z.mul_succ_div_gt (Zpos m * 2 ^ 53) (Zpos mu) eq_refl) as Q2.
      fold q in Q1, Q2.
      pose proof (Z.mul_div_le q (2 ^ K') PK) as Q3.
      pose proof (Z.mul_succ_div_gt q (2 ^ K') PK) as Q4.
      set (m1 := (q / 2 ^ K')%Z) in *.
      replace ((m1 + c') * 2 ^ K' * Zpos mu)%Z with ((m1 + c') * (2 ^ K' * Zpos mu))%Z by ring.
      apply one_ulp; [nia | exact QB' | | exact C'].
      set (T := (2 ^ K')%Z) in *. split; nia.
Qed.

(** C9, as the code has it on binary64.  For a box whose computed area is a
    double between 1 and 2^1000, [compute_iou(A, A)] is a finite double
    whose exact value is within [2e-6] of 1 (it can be exactly [1.0]). *)
Theorem compute_iou_self_binary64 (A : Box float) :
  PrimFloat.leb 1 (box_area A) = true ->
  PrimFloat.leb (box_area A) 0x1p1000 = true ->
  (1 - (2 # 1000000) <= float_exact (compute_iou A A)
   /\ float_exact (compute_iou A A) <= 1 + (2 # 1000000))%Q.
Proof.
  intros L U.
  destruct (@self_overlap_rounded_binary64 (box_area A) L U) as [A1 R].
  apply (@self_overlap_within_tolerance float F_PyNum float_exact A A1); [|exact R].
  split; [reflexivity | apply Qle_bool_iff; vm_compute; reflexivity].
Qed.

(** *** The properties on doubles, evaluated *)



Lemma compute_iou_self_binary64_witness :
  (1 - (2 # 1000000) <= float_exact (compute_iou DemoF.ten DemoF.ten)
   /\ float_exact (compute_iou DemoF.ten DemoF.ten) <= 1 + (2 # 1000000))%Q.
Proof.
  apply (@compute_iou_self_binary64 DemoF.ten); reflexivity.
Defined.


(** The values on doubles that the corrections of C7 and C9 turn on. *)
Example compute_iou_on_doubles :
  compute_iou DemoF.speck DemoF.speck = 0.5%float /\
  compute_iou DemoF.large DemoF.large = 1%float /\
  is_number (compute_iou DemoF.huge DemoF.huge) = false.
Proof. vm_compute. repeat split. Qed.

Lemma clamped_area_binary64_witness :
  PrimFloat.leb 0 (clamped_area 5 5 3 9)%float = true.
Proof.
  exact (proj2 (clamped_area_binary64 5 5 3 9) eq_refl).
Defined.
